(** * Mount middleware of Stick: dispatch, registration and reverse lookup

    A shallow embedding of [lib/middleware/mount.js] (module [Mount]) and of
    the older [lib/stick/middleware/mount.js] (module [StickMount]), with the
    properties of the mount registry, of the per-request dispatcher and of the
    reverse lookup stated and proved over it.

    JavaScript strings are embedded as [string]; a property that may be
    [undefined] or [null] is an [option string]; application objects are
    identified by a [positive] (object identity), and the [mountInfo] property
    attached to them is a finite map from identities to link arrays. *)

From Stdlib Require Import ZArith Ascii String List Lia.
From stdpp Require Import gmap strings list fin_maps sorting.

Local Open Scope Z_scope.
Local Open Scope nat_scope.

(** ** JavaScript primitives used by the middleware *)

Module JS.

(** Truthiness of a string: only the empty string is falsy. *)
Definition truthy_str (s : string) : bool :=
  match s with
  | EmptyString => false
  | String _ _ => true
  end.

(** Truthiness of a string-or-undefined value. *)
Definition truthy (v : option string) : bool :=
  match v with
  | Some s => truthy_str s
  | None => false
  end.

(** [v || d] for a string-or-undefined [v] and a string [d]. *)
Definition or_else (v : option string) (d : string) : string :=
  match v with
  | Some s => if truthy_str s then s else d
  | None => d
  end.

(** String coercion, as performed by [+] on a string-or-undefined value. *)
Definition to_String (v : option string) : string :=
  match v with
  | Some s => s
  | None => "undefined"
  end.

(** [a === b] on string-or-undefined values. *)
Definition strict_eq (a b : option string) : bool :=
  match a, b with
  | Some x, Some y => String.eqb x y
  | None, None => true
  | _, _ => false
  end.

(** [strings.startsWith(s, sub)] of ringo/utils/strings. *)
Definition startsWith (s sub : string) : bool := String.prefix sub s.

(** [strings.endsWith(s, sub)] of ringo/utils/strings: [sub] is a suffix
    of [s]. *)
Fixpoint endsWith (s sub : string) : bool :=
  String.eqb s sub ||
  match s with
  | EmptyString => false
  | String _ s' => endsWith s' sub
  end.

(** [s.slice(0, -1)]: all but the last character. *)
Fixpoint slice_0_m1 (s : string) : string :=
  match s with
  | EmptyString => EmptyString
  | String c s' =>
      match s' with
      | EmptyString => EmptyString
      | String _ _ => String c (slice_0_m1 s')
      end
  end.

(** [s.slice(n)]: [s] without its first [n] characters. *)
Fixpoint slice (s : string) (n : nat) {struct n} : string :=
  match n, s with
  | O, _ => s
  | S _, EmptyString => EmptyString
  | S n', String _ s' => slice s' n'
  end.

(** [s.match(/\//g)] followed by the [null]-to-0 conversion of the
    comparator: the number of ["/"] characters of [s]. *)
Fixpoint count_slashes (s : string) : nat :=
  match s with
  | EmptyString => 0
  | String c s' =>
      (if Ascii.eqb c "/"%char then 1 else 0) + count_slashes s'
  end.

(** [Array.prototype.sort(comparefn)], which ECMAScript (since its 2019
    edition) specifies to be stable: an element is placed before the first
    element it does not follow, and after every element it follows, so
    elements that compare equal keep their order. *)
Section Sort.
Context {A : Type} (comparefn : A → A → Z).

Fixpoint sort_insert (x : A) (l : list A) : list A :=
  match l with
  | [] => [x]
  | y :: l' =>
      if (comparefn x y <=? 0)%Z then x :: y :: l'
      else y :: sort_insert x l'
  end.

Fixpoint Array_sort (l : list A) : list A :=
  match l with
  | [] => []
  | x :: l' => sort_insert x (Array_sort l')
  end.
End Sort.

(** The characters [encodeURI] leaves alone: letters, digits and
    [; , / ? : @ & = + $ - _ . ! ~ * ' ( ) #]. *)
Definition uri_unescaped (c : ascii) : bool :=
  let n := nat_of_ascii c in
  ((65 <=? n) && (n <=? 90)) || ((97 <=? n) && (n <=? 122))
  || ((48 <=? n) && (n <=? 57))
  || existsb (Nat.eqb n)
       [59; 44; 47; 63; 58; 64; 38; 61; 43; 36;
        45; 95; 46; 33; 126; 42; 39; 40; 41; 35].

Definition hex_digit (n : nat) : ascii :=
  if n <? 10 then ascii_of_nat (48 + n) else ascii_of_nat (55 + n).

(** [encodeURI(s)], on a string read as its UTF-8 octets: every octet
    outside the unescaped set becomes [%XX] in upper-case hexadecimal. *)
Fixpoint encodeURI (s : string) : string :=
  match s with
  | EmptyString => EmptyString
  | String c s' =>
      if uri_unescaped c then String c (encodeURI s')
      else
        let n := nat_of_ascii c in
        String "%"%char
          (String (hex_digit (n / 16))
             (String (hex_digit (n mod 16)) (encodeURI s')))
  end.

(** Every character of [s] is one [encodeURI] leaves alone. *)
Fixpoint all_unescaped (s : string) : bool :=
  match s with
  | EmptyString => true
  | String c s' => uri_unescaped c && all_unescaped s'
  end.

End JS.

(** ** Requests, responses and handlers (JSGI) *)

(** Application objects are compared by identity. *)
Abbreviation App := positive (only parsing).

(** [req.env]: only [lookupModule] is read or written by the middleware. *)
Record Env := {
  lookupModule : option (string → string)
}.

(** A JSGI request. [pathInfo] may be absent ([None] is undefined, the
    value of a missing property; a request whose [pathInfo] is [null] is not
    represented); [headers] is the header object seen through the [get]
    accessor installed by [Headers(...)]. *)
Record Request := {
  scriptName : string;
  pathInfo : option string;
  headers : string → option string;
  method : string;
  queryString : string;
  env : Env
}.

(** The request with [scriptName] and [pathInfo] assigned. *)
Definition set_path (req : Request) (sn : string) (pi : option string)
  : Request :=
  {| scriptName := sn;
     pathInfo := pi;
     headers := headers req;
     method := method req;
     queryString := queryString req;
     env := env req |}.

Record Response := {
  status : Z;
  resp_headers : list (string * string);
  body : list string
}.

Inductive Error :=
| Missing_spec            (* new Error("Missing spec") *)
| Error_resolving_target  (* thrown while resolving the mount target *)
| TypeError.              (* a method call on undefined *)

(** What a call evaluates to: a returned response or a thrown error. *)
Inductive Completion :=
| Normal (r : Response)
| Abrupt (e : Error).

(** A request handler may mutate the request it is given, so it returns the
    request as it leaves it. *)
Definition Handler := Request → Completion * Request.

(** The target of a mount: an application object or a module id. *)
Inductive Target :=
| THandler (a : App)
| TModule (id : string).

(** The [spec] argument of [app.mount]. *)
Record Spec := {
  spec_path : option string;
  spec_canonicalPath : option string;
  spec_host : option string
}.

Inductive SpecArg :=
| SpecFalsy                 (* undefined, null: falsy and not a string *)
| SpecString (s : string)
| SpecObject (o : Spec).

(** ** Orders on arrays *)

Module SortOrder.

(** A comparator that subtracts keys, greater key first: the shape of
    [mostSpecificPathFirst]. *)
Definition key_desc {A : Type} (key : A → nat) (x y : A) : Z :=
  (Z.of_nat (key y) - Z.of_nat (key x))%Z.

(** Descending order of the keys. *)
Definition desc {A : Type} (key : A → nat) (x y : A) : Prop :=
  key y ≤ key x.

End SortOrder.

(** ** What the two files share: spec normalisation and the [match] closure *)

Module Common.

(** The first conjunct of [match]: the host test. *)
Definition host_test (spec : Spec) (req : Request) : bool :=
  let host := JS.or_else (headers req "host") "" in
  negb (JS.truthy (spec_host spec))
  || (JS.truthy_str host
      && JS.endsWith host (JS.to_String (spec_host spec))).

(** The second conjunct of [match]: the path test. *)
Definition path_test (spec : Spec) (req : Request) : bool :=
  let path := JS.or_else (pathInfo req) "/" in
  negb (JS.truthy (spec_path spec))
  || JS.strict_eq (Some path) (spec_path spec)
  || (JS.truthy_str path
      && JS.startsWith path (JS.to_String (spec_canonicalPath spec))).

Definition match_ (spec : Spec) (req : Request) : bool :=
  host_test spec req && path_test spec req.

(** The canonical-path set-up and host conversion of [app.mount], as the
    spec object is left by them. *)
Definition normalize (spec : Spec) : Spec :=
  let spec1 :=
    if JS.truthy (spec_path spec) then
      let p := JS.to_String (spec_path spec) in
      if JS.endsWith p "/" then
        {| spec_path := Some (JS.slice_0_m1 p);
           spec_canonicalPath := Some p;
           spec_host := spec_host spec |}
      else
        {| spec_path := Some p;
           spec_canonicalPath := Some (p +:+ "/");
           spec_host := spec_host spec |}
    else spec in
  {| spec_path := spec_path spec1;
     spec_canonicalPath := spec_canonicalPath spec1;
     spec_host :=
       if JS.truthy (spec_host spec1) then spec_host spec1 else None |}.

(** The first statement of [app.mount]: a string becomes [{path: spec}],
    any other falsy value throws. *)
Definition spec_of_arg (arg : SpecArg) : Error + Spec :=
  match arg with
  | SpecString s =>
      inr {| spec_path := Some s;
             spec_canonicalPath := None;
             spec_host := None |}
  | SpecFalsy => inl Missing_spec
  | SpecObject o => inr o
  end.

(** In the words of the specification: the spec argument supplies a path
    or a host. *)
Definition supplies_path_or_host (arg : SpecArg) : bool :=
  match arg with
  | SpecFalsy => false
  | SpecString s => JS.truthy_str s
  | SpecObject o => JS.truthy (spec_path o) || JS.truthy (spec_host o)
  end.

End Common.

(** ** lib/middleware/mount.js *)

Module Mount.

Import Common.

(** An entry of [resolved.mountInfo]. *)
Record Link := {
  parent : option App;
  link_path : option string;
  link_host : option string
}.

(** An entry of the [mounts] array. [spec] is the spec object captured by
    the [match] closure; [path] and [canonicalPath] are the copies taken
    when the entry was pushed. *)
Record MountPoint := {
  spec : Spec;
  path : option string;
  canonicalPath : option string;
  redirect : bool;
  app : App
}.

(** The state [app.mount] works on: the [mounts] array of this middleware
    instance and the [mountInfo] arrays attached to application objects
    (no entry: the property is undefined). *)
Record State := {
  mounts : list MountPoint;
  mountInfo : gmap positive (list Link)
}.

(** The number of slashes the comparator computes for one mount. *)
Definition slashes (m : MountPoint) : nat :=
  JS.count_slashes (JS.or_else (path m) "").

Definition mostSpecificPathFirst (m1 m2 : MountPoint) : Z :=
  let slash1 := slashes m1 in
  let slash2 := slashes m2 in
  (Z.of_nat slash2 - Z.of_nat slash1)%Z.

Section Registration.

(** The module loader behind [resolveApp]: the application a module id
    resolves to, if any. *)
Variable require : string → option positive.

(** Modelled from the spec: [resolveApp] of [lib/helpers.js], which is
    not part of the sources at hand. A handler value is the target
    itself; a symbolic identifier is resolved through the module loader,
    and a failed resolution throws. *)
Definition resolveApp (target : Target) : Error + positive :=
  match target with
  | THandler a => inr a
  | TModule id =>
      match require id with
      | Some a => inr a
      | None => inl Error_resolving_target
      end
  end.

(** The entry pushed on [mounts], with the spec object as it stands when
    the call returns. The [match] closure of the entry reads that object
    whenever a request comes in: if the caller passes the same object to
    [app.mount] again, the entry is from then on the one with [spec]
    replaced by what that call leaves, [path] and [canonicalPath] staying as
    copied. Statements about the dispatch of an entry therefore take any
    [MountPoint], and say so when they need [spec] and [path] to agree. *)
Definition new_mount (sp : Spec) (noRedirect : bool) (resolved : positive)
  : MountPoint :=
  {| spec := sp;
     path := spec_path sp;
     canonicalPath := spec_canonicalPath sp;
     redirect := negb noRedirect;
     app := resolved |}.

(** [app.mount(spec, target, noRedirect)] of the application [app].
    The result is the error thrown, if any, and the state left behind. *)
Definition app_mount (app : positive) (arg : SpecArg) (target : Target)
    (noRedirect : bool) (st : State) : option Error * State :=
  match spec_of_arg arg with
  | inl e => (Some e, st)
  | inr spec0 =>
      let sp := normalize spec0 in
      match resolveApp target with
      | inl e => (Some e, st)
      | inr resolved =>
          let info := default [] (mountInfo st !! resolved) in
          let link := {| parent := Some app;
                         link_path := spec_path sp;
                         link_host := spec_host sp |} in
          (None,
           {| mounts :=
                JS.Array_sort mostSpecificPathFirst
                  (mounts st ++ [new_mount sp noRedirect resolved]);
              mountInfo := <[resolved := info ++ [link]]> (mountInfo st) |})
      end
  end.

(** The three arguments of one call of [app.mount]. *)
Record Call := {
  call_spec : SpecArg;
  call_target : Target;
  call_noRedirect : bool
}.

(** The state after a series of calls of [app.mount], in order; a call
    that throws leaves the state as it was. *)
Definition run_calls (app : positive) (calls : list Call) (st : State)
  : State :=
  foldl (λ st c,
           snd (app_mount app (call_spec c) (call_target c)
                  (call_noRedirect c) st))
        st calls.

(** The entry a call pushes, when the call does not throw. *)
Definition registered (c : Call) : option MountPoint :=
  match spec_of_arg (call_spec c) with
  | inl _ => None
  | inr spec0 =>
      match resolveApp (call_target c) with
      | inl _ => None
      | inr resolved =>
          Some (new_mount (normalize spec0) (call_noRedirect c) resolved)
      end
  end.

(** The walk of [lookup]. [first_unseen] is the inner [for] loop: the
    first link whose parent is set and not in [seen]. *)
Fixpoint first_unseen (mounts : list Link) (seen : list positive)
  : option (positive * Link) :=
  match mounts with
  | [] => None
  | mount :: rest =>
      match parent mount with
      | Some p =>
          if bool_decide (p ∈ seen) then first_unseen rest seen
          else Some (p, mount)
      | None => first_unseen rest seen
      end
  end.

(** The [outer] loop; every iteration consumes one unit of [fuel], and
    [None] means the fuel ran out before the loop ended. *)
Fixpoint lookup_walk (fuel : nat) (info : gmap positive (list Link))
    (mounts : option (list Link)) (seen : list positive) (path : string)
  : option string :=
  match mounts with
  | None => Some path
  | Some ms =>
      match first_unseen ms seen with
      | None => Some path
      | Some (p, mount) =>
          match fuel with
          | O => None
          | S fuel' =>
              lookup_walk fuel' info (info !! p) (seen ++ [p])
                (JS.or_else (link_path mount) "" +:+ path)
          end
      end
  end.

(** [exports.lookup(target)] run with [fuel] iterations at most. *)
Definition lookup_fuel (fuel : nat) (info : gmap positive (list Link))
    (target : Target) : option (Error + string) :=
  match resolveApp target with
  | inl e => Some (inl e)
  | inr resolved =>
      match info !! resolved with
      | None => Some (inr "")
      | Some ms =>
          inr <$> lookup_walk fuel info (Some ms) [resolved] ""
      end
  end.

(** One iteration per application carrying links is always enough. *)
Definition lookup (info : gmap positive (list Link)) (target : Target)
  : option (Error + string) :=
  lookup_fuel (size info) info target.

End Registration.

(** *** The middleware function *)

Inductive Callee :=
| CApp (a : positive)   (* a mounted application *)
| CNext.                (* the wrapped middleware chain *)

(** How [mount(req)] ends: with a response of its own, with a call in
    tail position on the request as it stands, or with an error. *)
Inductive Outcome :=
| Return (r : Response)
| TailCall (f : Callee) (req : Request)
| Raise (e : Error) (req : Request).

Definition see_other (location : string) : Response :=
  {| status := 303;
     resp_headers := [("location", location)];
     body := ["See other: "; location] |}.

(** The condition of the redirect. *)
Definition wants_redirect (mount : MountPoint) (req : Request) : bool :=
  redirect mount
  && JS.strict_eq (pathInfo req) (path mount)
  && String.eqb (method req) "GET".

Definition redirect_location (mount : MountPoint) (req : Request) : string :=
  let location := scriptName req +:+ JS.to_String (canonicalPath mount) in
  if JS.truthy_str (queryString req)
  then location +:+ "?" +:+ queryString req
  else location.

(** The body of the [if (mount.match(req))] block. *)
Definition dispatch_to (mount : MountPoint) (req : Request) : Outcome :=
  if wants_redirect mount req then
    Return (see_other (redirect_location mount req))
  else if JS.truthy (path mount) then
    let p := JS.to_String (path mount) in
    let req1 := set_path req (scriptName req +:+ p) (pathInfo req) in
    match pathInfo req1 with
    | None => Raise TypeError req1
    | Some pi =>
        TailCall (CApp (app mount))
          (set_path req1 (scriptName req1)
             (Some (JS.slice pi (String.length p))))
    end
  else TailCall (CApp (app mount)) req.

(** The [for] loop over [mounts], falling through to [next]. *)
Fixpoint mount_loop (mounts : list MountPoint) (req : Request) : Outcome :=
  match mounts with
  | [] => TailCall CNext req
  | mount :: rest =>
      if match_ (spec mount) req then dispatch_to mount req
      else mount_loop rest req
  end.

(** The mount the loop stops at: the first one, in array order, whose
    [match] accepts the request. *)
Definition first_match (mounts : list MountPoint) (req : Request)
  : option MountPoint :=
  List.find (fun mount => match_ (spec mount) req) mounts.

(** The middleware function [mount(req)], given what the mounted
    applications and [next] do. *)
Definition mount (invoke : positive → Handler) (next : Handler)
    (mounts : list MountPoint) : Handler :=
  fun req =>
    match mount_loop mounts req with
    | Return r => (Normal r, req)
    | TailCall (CApp a) req' => invoke a req'
    | TailCall CNext req' => next req'
    | Raise e req' => (Abrupt e, req')
    end.

End Mount.

(** ** lib/stick/middleware/mount.js *)

Module StickMount.

Import Common.

(** An entry of the [mounts] array. *)
Record MountPoint := {
  spec : Spec;
  path : option string;
  canonicalPath : option string;
  target : positive
}.

(** The [mounts] array and the [reverse] object, from module id to spec. *)
Record State := {
  mounts : list MountPoint;
  reverse : gmap string Spec
}.

Section Registration.

(** [require(id).app] when it is a function. *)
Variable require : string → option positive.

Definition push (sp : Spec) (a : positive) (st : State) : State :=
  {| mounts := mounts st ++
               [{| spec := sp;
                   path := spec_path sp;
                   canonicalPath := spec_canonicalPath sp;
                   target := a |}];
     reverse := reverse st |}.

(** [app.mount(spec, target)]: the error thrown, if any, and the state
    left behind. *)
Definition app_mount (arg : SpecArg) (tgt : Target) (st : State)
  : option Error * State :=
  match spec_of_arg arg with
  | inl e => (Some e, st)
  | inr spec0 =>
      let sp := normalize spec0 in
      match tgt with
      | TModule id =>
          let st1 := {| mounts := mounts st;
                        reverse := <[id := sp]> (reverse st) |} in
          match require id with
          | Some a => (None, push sp a st1)
          | None => (Some Error_resolving_target, st1)
          end
      | THandler a => (None, push sp a st)
      end
  end.

End Registration.

Inductive Callee :=
| CTarget (a : positive)
| CNext.

Inductive Outcome :=
| Return (r : Response)
| TailCall (f : Callee) (req : Request)
| Raise (e : Error) (req : Request).

(** The function installed as [req.env.lookupModule]. *)
Definition lookupModule_fn (reverse : gmap string Spec) (base : string)
    (parentLookup : option (string → string)) : string → string :=
  fun id =>
    let fallback :=
      match parentLookup with
      | Some f => f id
      | None => "/_" +:+ id +:+ "_(unresolved_module)"
      end in
    match reverse !! id with
    | Some spec =>
        if JS.truthy (spec_canonicalPath spec)
        then JS.encodeURI (base +:+ JS.to_String (spec_canonicalPath spec))
        else fallback
    | None => fallback
    end.

(** The request after the resolver has been installed. *)
Definition install (reverse : gmap string Spec) (req : Request) : Request :=
  let base := scriptName req in
  let parentLookup := lookupModule (env req) in
  {| scriptName := scriptName req;
     pathInfo := pathInfo req;
     headers := headers req;
     method := method req;
     queryString := queryString req;
     env := {| lookupModule :=
                 Some (lookupModule_fn reverse base parentLookup) |} |}.

Definition see_other (location : string) : Response :=
  {| status := 303;
     resp_headers := [("Location", location)];
     body := ["See other: "; location] |}.

Definition dispatch_to (mount : MountPoint) (req : Request) : Outcome :=
  if JS.strict_eq (pathInfo req) (path mount)
     && String.eqb (method req) "GET" then
    let location := scriptName req +:+ JS.to_String (canonicalPath mount) in
    let location :=
      if JS.truthy_str (queryString req)
      then location +:+ "?" +:+ queryString req
      else location in
    Return (see_other location)
  else if JS.truthy (path mount) then
    let p := JS.to_String (path mount) in
    let req1 := set_path req (scriptName req +:+ p) (pathInfo req) in
    match pathInfo req1 with
    | None => Raise TypeError req1
    | Some pi =>
        TailCall (CTarget (target mount))
          (set_path req1 (scriptName req1)
             (Some (JS.slice pi (String.length p))))
    end
  else TailCall (CTarget (target mount)) req.

Fixpoint mount_loop (mounts : list MountPoint) (req : Request) : Outcome :=
  match mounts with
  | [] => TailCall CNext req
  | mount :: rest =>
      if match_ (spec mount) req then dispatch_to mount req
      else mount_loop rest req
  end.

Definition first_match (mounts : list MountPoint) (req : Request)
  : option MountPoint :=
  List.find (fun mount => match_ (spec mount) req) mounts.

(** What [mount(req)] decides: the resolver is installed first, then the
    loop runs on the request so changed. *)
Definition mount_outcome (st : State) (req : Request) : Outcome :=
  mount_loop (mounts st) (install (reverse st) req).

Definition mount (invoke : positive → Handler) (next : Handler)
    (st : State) : Handler :=
  fun req =>
    match mount_outcome st req with
    | Return r => (Normal r, install (reverse st) req)
    | TailCall (CTarget a) req' => invoke a req'
    | TailCall CNext req' => next req'
    | Raise e req' => (Abrupt e, req')
    end.

End StickMount.

(** ** Sample data for the worked examples *)

Module Sample.

(** A loader that knows no module. *)
Definition no_module : string → option positive := λ _, None.

(** A loader that knows every module as application 7. *)
Definition any_module : string → option positive := λ _, Some 7%positive.

(** A request under the script name ["/app"], with the given method,
    [pathInfo], query string and Host header. *)
Definition request (meth : string) (pi : option string) (qs : string)
    (host : option string) : Request :=
  {| scriptName := "/app";
     pathInfo := pi;
     headers := λ name, if String.eqb name "host" then host else None;
     method := meth;
     queryString := qs;
     env := {| lookupModule := None |} |}.

(** A handler that answers 200 and names the [pathInfo] it was given. *)
Definition echo : Handler :=
  λ req, (Normal {| status := 200;
                    resp_headers := [];
                    body := [JS.to_String (pathInfo req)] |}, req).

Definition path_spec (p : string) : Spec :=
  {| spec_path := Some p; spec_canonicalPath := None; spec_host := None |}.

Definition host_spec (h : string) : Spec :=
  {| spec_path := None; spec_canonicalPath := None; spec_host := Some h |}.

Definition empty_object : Spec :=
  {| spec_path := None; spec_canonicalPath := None; spec_host := None |}.

Definition call (arg : SpecArg) (a : positive) (noRedirect : bool)
  : Mount.Call :=
  {| Mount.call_spec := arg;
     Mount.call_target := THandler a;
     Mount.call_noRedirect := noRedirect |}.

Definition fresh : Mount.State :=
  {| Mount.mounts := []; Mount.mountInfo := ∅ |}.

(** The registry of application 1 after [mount("/wiki", app2)]. *)
Definition wiki (noRedirect : bool) : list Mount.MountPoint :=
  Mount.mounts
    (Mount.run_calls no_module 1 [call (SpecString "/wiki") 2 noRedirect]
       fresh).

(** Five mounts, registered in this order. *)
Definition five_calls : list Mount.Call :=
  [call (SpecString "/a") 2 false;
   call (SpecString "/a/b/c") 3 false;
   call (SpecObject (host_spec "example.com")) 4 false;
   call (SpecString "/x") 5 false;
   call (SpecString "/a/b/") 6 false].

End Sample.

(** ** The reverse links a series of calls leaves *)

Module Links.

(** The link a call of [app.mount] appends to the [mountInfo] array of the
    application [k]: none when the call throws or its target resolves to
    another application. *)
Definition link_for (require : string → option positive) (app k : positive)
    (c : Mount.Call) : option Mount.Link :=
  match Mount.registered require c with
  | Some m =>
      if decide (Mount.app m = k)
      then Some {| Mount.parent := Some app;
                   Mount.link_path := Mount.path m;
                   Mount.link_host := spec_host (Mount.spec m) |}
      else None
  | None => None
  end.

(** No link of [info] names [b] as its parent: [b] has mounted nothing. *)
Definition never_parent (b : positive)
    (info : gmap positive (list Mount.Link)) : Prop :=
  ∀ k ls, info !! k = Some ls →
          Forall (λ l, Mount.parent l ≠ Some b) ls.

End Links.

(** ** The older dispatcher seen as the newer one *)

Module Older.

(** An entry of the older file's [mounts] array as an entry of the newer
    file's: the older file has no [noRedirect] argument, so the entry
    redirects. *)
Definition to_main (m : StickMount.MountPoint) : Mount.MountPoint :=
  {| Mount.spec := StickMount.spec m;
     Mount.path := StickMount.path m;
     Mount.canonicalPath := StickMount.canonicalPath m;
     Mount.redirect := true;
     Mount.app := StickMount.target m |}.

(** The older file names the header ["Location"], the newer ["location"]. *)
Definition lower_location (r : Response) : Response :=
  {| status := status r;
     resp_headers :=
       (λ kv, (if String.eqb (fst kv) "Location"
               then "location" else fst kv, snd kv)) <$> resp_headers r;
     body := body r |}.

Definition as_main (o : StickMount.Outcome) : Mount.Outcome :=
  match o with
  | StickMount.Return r => Mount.Return (lower_location r)
  | StickMount.TailCall (StickMount.CTarget a) req =>
      Mount.TailCall (Mount.CApp a) req
  | StickMount.TailCall StickMount.CNext req => Mount.TailCall Mount.CNext req
  | StickMount.Raise e req => Mount.Raise e req
  end.

End Older.

(** ** The upload middleware (second part of lib/middleware/mount.js) *)

Module Upload.

(** [req.env.servletRequest], as far as the middleware reads it. *)
Record ServletRequest := {
  getContentType : option string;
  getCharacterEncoding : option string
}.

Section Middleware.

(** The parameter objects and the stream factories. *)
Context {Params Factory : Type}.

(** [isFileUpload] and [parseFileUpload] of ringo/utils/http.
    [parseFileUpload req encoding factory] is what the call has put into
    the empty object it was given, and the error when it throws. *)
Variable isFileUpload : option string → bool.
Variable parseFileUpload :
  Request → ServletRequest → option string → Factory → Params * option Error.

(** The own property [postParams] the middleware finds on the request: a
    data property with its value, or an accessor with what its getter
    returns, when it has one. [None] stands for undefined or another falsy
    value. *)
Inductive Descriptor :=
| DataDescriptor (value : option Params)
| AccessorDescriptor (get : option (option Params)).

(** [desc.get ? desc.get.apply(req) : desc.value]. *)
Definition descriptor_value (desc : Descriptor) : option Params :=
  match desc with
  | AccessorDescriptor (Some v) => v
  | AccessorDescriptor None => None
  | DataDescriptor v => v
  end.

(** The variables the getter closes over: [streamFactory] of the
    middleware, [postParams] of the request at hand, and, as a record of the
    effect, the factories [parseFileUpload] has been called with. *)
Record State := {
  streamFactory : Factory;
  postParams : option Params;
  parses : list Factory
}.

(** [app.upload(factory)]. *)
Definition app_upload (factory : Factory) (st : State) : State :=
  {| streamFactory := factory;
     postParams := postParams st;
     parses := parses st |}.

(** The condition under which the request body is parsed. *)
Definition is_upload (req : Request) (servlet : ServletRequest) : bool :=
  (String.eqb (method req) "POST" || String.eqb (method req) "PUT")
  && isFileUpload (getContentType servlet).

(** The getter installed as [req.postParams]: what a read evaluates to, and
    the state it leaves. *)
Definition get (req : Request) (servlet : ServletRequest)
    (desc : option Descriptor) (st : State)
  : (Error + option Params) * State :=
  match postParams st with
  | Some v => (inr (Some v), st)
  | None =>
      if is_upload req servlet then
        let encoding := getCharacterEncoding servlet in
        let (filled, thrown) :=
          parseFileUpload req servlet encoding (streamFactory st) in
        let st' := {| streamFactory := streamFactory st;
                      postParams := Some filled;
                      parses := parses st ++ [streamFactory st] |} in
        match thrown with
        | Some e => (inl e, st')
        | None => (inr (Some filled), st')
        end
      else
        match desc with
        | Some d =>
            let v := descriptor_value d in
            (inr v, {| streamFactory := streamFactory st;
                       postParams := v;
                       parses := parses st |})
        | None => (inr None, st)
        end
  end.

(** What happens to a request after [upload(req)]: reads of
    [req.postParams] and calls of [app.upload]. *)
Inductive Op :=
| Read
| SetFactory (factory : Factory).

Definition step (req : Request) (servlet : ServletRequest)
    (desc : option Descriptor) (st : State) (op : Op) : State :=
  match op with
  | Read => snd (get req servlet desc st)
  | SetFactory factory => app_upload factory st
  end.

Definition run (req : Request) (servlet : ServletRequest)
    (desc : option Descriptor) (ops : list Op) (st : State) : State :=
  foldl (step req servlet desc) st ops.

(** The state when [upload(req)] returns: nothing read, nothing parsed. *)
Definition installed (factory : Factory) : State :=
  {| streamFactory := factory; postParams := None; parses := [] |}.

End Middleware.

End Upload.

(** ** Sample data for the upload middleware *)

Module UploadSample.

(** Parameter objects as lists of names and values; factories by number. *)
Definition Params : Type := list (string * string).

Definition isFileUpload (contentType : option string) : bool :=
  match contentType with
  | Some s => JS.startsWith s "multipart/form-data"
  | None => false
  end.

(** A parser that finds one file and records the factory it was given. *)
Definition parse (req : Request) (servlet : Upload.ServletRequest)
    (encoding : option string) (factory : nat) : Params * option Error :=
  ([("file", "a.txt"); ("factory", if Nat.eqb factory 0 then "buffer" else "other")],
   None).

(** A parser that throws after the first field. *)
Definition parse_failing (req : Request) (servlet : Upload.ServletRequest)
    (encoding : option string) (factory : nat) : Params * option Error :=
  ([("title", "draft")], Some TypeError).

Definition multipart : Upload.ServletRequest :=
  {| Upload.getContentType := Some "multipart/form-data; boundary=x";
     Upload.getCharacterEncoding := Some "UTF-8" |}.

Definition urlencoded : Upload.ServletRequest :=
  {| Upload.getContentType := Some "application/x-www-form-urlencoded";
     Upload.getCharacterEncoding := None |}.

Definition post : Request :=
  {| scriptName := "";
     pathInfo := Some "/upload";
     headers := λ _, None;
     method := "POST";
     queryString := "";
     env := {| lookupModule := None |} |}.

(** The property the params middleware would have left on the request. *)
Definition earlier : option (@Upload.Descriptor Params) :=
  Some (Upload.AccessorDescriptor (Some (Some [("q", "1")]))).

End UploadSample.

(** ** A handler that cannot be called unnoticed *)

Module Probe.

(** It throws, and leaves the request it was given with another
    [scriptName] and without [pathInfo]. *)
Definition spoil : Handler :=
  λ req, (Abrupt TypeError,
          {| scriptName := "spoiled";
             pathInfo := None;
             headers := headers req;
             method := method req;
             queryString := queryString req;
             env := env req |}).

End Probe.

(** * Properties *)

Import Common.

(** ** Strings *)

Lemma append_empty_r (s : string) : s +:+ "" = s.
Proof.
  induction s as [|c s IH]; [reflexivity|].
  change (String c (s +:+ "") = String c s). by rewrite IH.
Qed.

Lemma truthy_str_true (s : string) : JS.truthy_str s = true ↔ s ≠ "".
Proof. destruct s; simpl; split; intros; congruence. Qed.

Lemma truthy_false (v : option string) :
  JS.truthy v = false ↔ v = None ∨ v = Some "".
Proof.
  destruct v as [[|c s]|]; simpl; split;
    [auto | auto | discriminate | intros [H|H]; discriminate H | auto | auto].
Qed.

Lemma or_else_truthy (v : option string) (d : string) :
  JS.truthy v = false → JS.or_else v d = d.
Proof. by destruct v as [[|c s]|]. Qed.

(** [endsWith] is the suffix test. *)
Lemma endsWith_suffix (s sub : string) :
  JS.endsWith s sub = true ↔ ∃ pre, s = pre +:+ sub.
Proof.
  induction s as [|c s IH].
  - change (JS.endsWith "" sub) with (String.eqb "" sub || false).
    rewrite orb_false_r, String.eqb_eq. split.
    + intros <-. by exists "".
    + intros [[|c pre] H]; [exact H | discriminate H].
  - change (JS.endsWith (String c s) sub)
      with (String.eqb (String c s) sub || JS.endsWith s sub).
    rewrite orb_true_iff, String.eqb_eq, IH. split.
    + intros [<- | [pre ->]]; [by exists "" | by exists (String c pre)].
    + intros [[|c' pre] H]; [by left | right].
      injection H as <- ->. by exists pre.
Qed.

Lemma slice_append (p rest : string) :
  JS.slice (p +:+ rest) (String.length p) = rest.
Proof.
  induction p as [|c p IH]; [reflexivity | exact IH].
Qed.

Lemma slice_all (p : string) : JS.slice p (String.length p) = "".
Proof. rewrite <- (append_empty_r p) at 1. apply slice_append. Qed.

(** A path that ends with a slash is its [slice(0, -1)] followed by the
    slash. *)
Lemma slice_0_m1_slash (p : string) :
  JS.endsWith p "/" = true → p = JS.slice_0_m1 p +:+ "/".
Proof.
  intros [pre ->]%endsWith_suffix.
  induction pre as [|c pre IH]; [reflexivity|].
  change (String c pre +:+ "/") with (String c (pre +:+ "/")).
  assert (∃ a t, pre +:+ "/" = String a t) as (a & t & E).
  { destruct pre as [|a t]; [by exists "/"%char, "" | by eexists a, _]. }
  rewrite E in IH |- *.
  change (String c (String a t) =
          String c (JS.slice_0_m1 (String a t) +:+ "/")).
  by rewrite <- IH.
Qed.

(** ** The spec object after normalisation *)


(** A normalised spec with a non-empty path has that path followed by a
    slash as canonical path. *)
Lemma normalize_canonical (o : Spec) (p : string) :
  spec_path (normalize o) = Some p → p ≠ "" →
  spec_canonicalPath (normalize o) = Some (p +:+ "/").
Proof.
  unfold normalize. destruct (JS.truthy (spec_path o)) eqn:Ht.
  - destruct (spec_path o) as [q|]; [|discriminate]. simpl.
    destruct (JS.endsWith q "/") eqn:He; simpl.
    + intros [= <-] _. f_equal. by apply slice_0_m1_slash.
    + by intros [= <-] _.
  - simpl. intros Hp Hne. rewrite Hp in Ht. simpl in Ht.
    by apply truthy_str_true in Hne; congruence.
Qed.

(** ** C6: the host test *)


(** ** C10: absent and empty [pathInfo] in the path test *)

Lemma path_test_long_prefix (sp : Spec) (req : Request) (p : string) :
  JS.truthy (pathInfo req) = false →
  spec_path sp = Some p → spec_canonicalPath sp = Some (p +:+ "/") →
  1 < String.length p → path_test sp req = false.
Proof.
  intros Hpi Hp Hc Hlen. unfold path_test.
  rewrite (or_else_truthy _ _ Hpi), Hp, Hc.
  destruct p as [|a [|b p]]; simpl in Hlen; [lia | lia |].
  cbn [JS.truthy JS.truthy_str JS.to_String JS.strict_eq negb orb andb].
  apply orb_false_iff. split.
  - apply String.eqb_neq. intros [=].
  - change (String a (String b p) +:+ "/")
      with (String a (String b (p +:+ "/"))).
    unfold JS.startsWith. cbn [String.prefix].
    destruct (ascii_dec a "/"); reflexivity.
Qed.

(** On such a request the path test of a registered mount holds exactly
    when the mount has no path to test or its path is ["/"]. *)
Lemma path_test_root_iff (o : Spec) (req : Request) :
  JS.truthy (pathInfo req) = false →
  path_test (normalize o) req = true ↔
  JS.truthy (spec_path (normalize o)) = false
  ∨ spec_path (normalize o) = Some "/".
Proof.
  intros Hpi. destruct (spec_path (normalize o)) as [p|] eqn:Hp.
  - destruct p as [|a p].
    + unfold path_test. rewrite Hp. simpl. naive_solver.
    + assert (Hc := normalize_canonical o _ Hp ltac:(done)).
      unfold path_test. rewrite (or_else_truthy _ _ Hpi), Hp, Hc.
      cbn [JS.truthy JS.truthy_str JS.to_String JS.strict_eq negb orb andb].
      change (String a p +:+ "/") with (String a (p +:+ "/")).
      assert (JS.startsWith "/" (String a (p +:+ "/")) = false) as ->.
      { unfold JS.startsWith. cbn [String.prefix].
        destruct (ascii_dec a "/"); [|done]. by destruct p. }
      rewrite orb_false_r, String.eqb_eq. split.
      * intros <-. by right.
      * by intros [H | [= <- <-]].
  - unfold path_test. rewrite Hp. simpl. by split; [left|].
Qed.

(** C10. In the path test a request whose [pathInfo] is absent or empty
    stands for the path ["/"]: the test gives what it gives on ["/"], it
    accepts a host-only mount and a mount whose canonical path is ["/"], and
    it rejects every registered mount whose path is longer than ["/"]
    (of the registered mounts it accepts exactly those without a path to
    test and the one whose path is ["/"]). The redirect comparison reads
    the raw [pathInfo]: on a mount whose path is ["/"] it fails for such a
    request although it would hold for ["/"]. *)
Theorem empty_pathInfo_is_root (req : Request) :
  pathInfo req = None ∨ pathInfo req = Some "" →
  (∀ sp : Spec,
      path_test sp req =
      path_test sp (set_path req (scriptName req) (Some "/")))
  ∧ (∀ sp : Spec, spec_path sp = None → path_test sp req = true)
  ∧ (∀ sp : Spec, spec_canonicalPath sp = Some "/" → path_test sp req = true)
  ∧ (∀ (o : Spec) (p : string),
        spec_path (normalize o) = Some p → 1 < String.length p →
        path_test (normalize o) req = false)
  ∧ (∀ o : Spec,
        path_test (normalize o) req = true ↔
        JS.truthy (spec_path (normalize o)) = false
        ∨ spec_path (normalize o) = Some "/")
  ∧ (∀ m : Mount.MountPoint,
        Mount.path m = Some "/" →
        Mount.wants_redirect m req = false
        ∧ Mount.wants_redirect m (set_path req (scriptName req) (Some "/"))
          = Mount.redirect m && String.eqb (method req) "GET").
Proof.
  intros Hpi. apply truthy_false in Hpi as Ht.
  repeat split.
  - intros sp. unfold path_test. by rewrite (or_else_truthy _ _ Ht).
  - intros sp Hp. unfold path_test. by rewrite Hp.
  - intros sp Hc. unfold path_test.
    rewrite (or_else_truthy _ _ Ht), Hc. simpl.
    by rewrite !orb_true_r.
  - intros o p Hp Hlen.
    apply (path_test_long_prefix _ _ p); [done | done | | done].
    apply normalize_canonical; [done|]. intros ->. simpl in Hlen. lia.
  - by apply path_test_root_iff.
  - by apply path_test_root_iff.
  - unfold Mount.wants_redirect. rewrite H.
    destruct Hpi as [-> | ->]; simpl; by rewrite andb_false_r.
  - unfold Mount.wants_redirect. rewrite H. simpl. by rewrite andb_true_r.
Qed.

(** ** The dispatch loop of lib/middleware/mount.js *)

(** The loop hands the request to the first matching mount, or to [next]. *)
Lemma mount_loop_first_match (ms : list Mount.MountPoint) (req : Request) :
  Mount.mount_loop ms req =
  match Mount.first_match ms req with
  | Some m => Mount.dispatch_to m req
  | None => Mount.TailCall Mount.CNext req
  end.
Proof.
  induction ms as [|m ms IH]; [reflexivity|].
  unfold Mount.first_match in *. simpl.
  by destruct (match_ (Mount.spec m) req).
Qed.

Lemma wants_redirect_iff (m : Mount.MountPoint) (req : Request) :
  Mount.wants_redirect m req = true ↔
  Mount.redirect m = true ∧ pathInfo req = Mount.path m ∧ method req = "GET".
Proof.
  unfold Mount.wants_redirect.
  rewrite !andb_true_iff, String.eqb_eq.
  assert (JS.strict_eq (pathInfo req) (Mount.path m) = true
          ↔ pathInfo req = Mount.path m) as ->; [|tauto].
  destruct (pathInfo req) as [a|], (Mount.path m) as [b|]; simpl;
    rewrite ?String.eqb_eq; split; congruence.
Qed.

Lemma set_path_same (req : Request) :
  set_path req (scriptName req) (pathInfo req) = req.
Proof. by destruct req. Qed.

(** The middleware function, by the way the loop ends. *)
Lemma mount_of_loop (invoke : positive → Handler) (next : Handler)
    (ms : list Mount.MountPoint) (req : Request) :
  Mount.mount invoke next ms req =
  match Mount.mount_loop ms req with
  | Mount.Return r => (Normal r, req)
  | Mount.TailCall (Mount.CApp a) req' => invoke a req'
  | Mount.TailCall Mount.CNext req' => next req'
  | Mount.Raise e req' => (Abrupt e, req')
  end.
Proof. reflexivity. Qed.

(** Without a redirect the matched mount has its application called, or
    the rewriting throws. *)
Lemma dispatch_to_no_redirect (m : Mount.MountPoint) (req : Request) :
  Mount.wants_redirect m req = false →
  (∃ req', Mount.dispatch_to m req
           = Mount.TailCall (Mount.CApp (Mount.app m)) req')
  ∨ (∃ req', Mount.dispatch_to m req = Mount.Raise TypeError req').
Proof.
  intros Hw. unfold Mount.dispatch_to. rewrite Hw.
  destruct (JS.truthy (Mount.path m)); [|by left; eexists].
  cbn [pathInfo set_path].
  destruct (pathInfo req); [left | right]; by eexists.
Qed.

(** C2. For the mount the dispatcher stops at, when it has a path: the
    middleware function returns, whatever the mounted applications and
    [next] would do, a response with status 303 and a [location] header made
    of [scriptName], the canonical path and, for a non-empty query string,
    ["?"] and the query string, and leaves the request as it came in,
    exactly when the mount redirects, [pathInfo] is the mount's path and the
    method is GET; no handler is called then. A mount registered with
    [noRedirect] set never makes the dispatcher answer on its own: for a
    request for the bare prefix the middleware function returns what the
    mounted application returns on the request with the path appended to
    [scriptName] and an empty [pathInfo]. The canonical path of a registered
    mount with a non-empty path is that path and a slash. *)
Theorem redirect_on_missing_slash
    (ms : list Mount.MountPoint) (req : Request) (m : Mount.MountPoint)
    (p : string) :
  Mount.first_match ms req = Some m →
  Mount.path m = Some p →
  let location0 := scriptName req +:+ JS.to_String (Mount.canonicalPath m) in
  let location :=
    if JS.truthy_str (queryString req)
    then location0 +:+ "?" +:+ queryString req
    else location0 in
  let see_other := {| status := 303;
                      resp_headers := [("location", location)];
                      body := ["See other: "; location] |} in
  let bare := {| scriptName := scriptName req +:+ p;
                 pathInfo := Some "";
                 headers := headers req;
                 method := method req;
                 queryString := queryString req;
                 env := env req |} in
  (Mount.redirect m = true ∧ pathInfo req = Some p ∧ method req = "GET" →
   Mount.mount_loop ms req = Mount.Return see_other)
  ∧ ((∃ r, Mount.mount_loop ms req = Mount.Return r) →
     Mount.redirect m = true ∧ pathInfo req = Some p ∧ method req = "GET")
  ∧ ((∀ (invoke : positive → Handler) (next : Handler),
         Mount.mount invoke next ms req = (Normal see_other, req))
     ↔ Mount.redirect m = true ∧ pathInfo req = Some p ∧ method req = "GET")
  ∧ (∀ (sp : Spec) (a : positive),
        m = Mount.new_mount sp true a →
        (∀ r, Mount.mount_loop ms req ≠ Mount.Return r)
        ∧ (pathInfo req = Some p →
           Mount.mount_loop ms req = Mount.TailCall (Mount.CApp a) bare
           ∧ ∀ (invoke : positive → Handler) (next : Handler),
               Mount.mount invoke next ms req = invoke a bare))
  ∧ (∀ (o : Spec) (noRedirect : bool) (a : positive),
        m = Mount.new_mount (normalize o) noRedirect a → p ≠ "" →
        Mount.canonicalPath m = Some (p +:+ "/")).
Proof.
  intros Hm Hp location0 location see_other bare.
  assert (Hloop : Mount.mount_loop ms req = Mount.dispatch_to m req).
  { by rewrite mount_loop_first_match, Hm. }
  assert (Hcond : Mount.wants_redirect m req = true ↔
                  Mount.redirect m = true ∧ pathInfo req = Some p
                  ∧ method req = "GET").
  { rewrite wants_redirect_iff. by rewrite Hp. }
  assert (Hyes : Mount.wants_redirect m req = true →
                 Mount.mount_loop ms req = Mount.Return see_other).
  { intros Hw. rewrite Hloop. unfold Mount.dispatch_to. by rewrite Hw. }
  assert (Hno : Mount.wants_redirect m req = false →
                ∀ r, Mount.mount_loop ms req ≠ Mount.Return r).
  { intros Hw r. rewrite Hloop.
    by destruct (dispatch_to_no_redirect m req Hw) as [[req' ->] | [req' ->]]. }
  split; [intros H; by apply Hyes, Hcond|].
  split.
  { intros [r Hr]. apply Hcond.
    destruct (Mount.wants_redirect m req) eqn:Hw; [done|].
    by destruct (Hno eq_refl r). }
  split.
  { split.
    - intros Hall. apply Hcond.
      destruct (Mount.wants_redirect m req) eqn:Hw; [done|]. exfalso.
      specialize (Hall (λ _, Probe.spoil) Probe.spoil).
      rewrite mount_of_loop, Hloop in Hall.
      by destruct (dispatch_to_no_redirect m req Hw) as [[req' Hd] | [req' Hd]];
        rewrite Hd in Hall.
    - intros Hc%Hcond invoke next. by rewrite mount_of_loop, (Hyes Hc). }
  split.
  - intros sp a ->.
    assert (Hw : Mount.wants_redirect (Mount.new_mount sp true a) req = false)
      by done.
    split; [exact (Hno Hw)|]. intros Hpi.
    assert (Hl : Mount.mount_loop ms req = Mount.TailCall (Mount.CApp a) bare).
    { rewrite Hloop. unfold Mount.dispatch_to. rewrite Hw, Hp.
      unfold bare. destruct p as [|c p].
      - cbn [JS.truthy JS.truthy_str Mount.app Mount.new_mount].
        rewrite append_empty_r, <- Hpi. by destruct req.
      - cbn [JS.truthy JS.truthy_str JS.to_String Mount.app Mount.new_mount
               pathInfo scriptName set_path].
        rewrite Hpi. unfold set_path. cbn [headers method queryString env].
        by rewrite slice_all. }
    split; [exact Hl|]. intros invoke next. by rewrite mount_of_loop, Hl.
  - intros o nr a -> Hne. simpl in *. by apply normalize_canonical.
Qed.

(** C3, as amended. When the dispatcher stops at a mount and does not
    answer on its own, and the request's [pathInfo] is a string, a mount
    with a path has the request rewritten before the mounted application is
    called: [scriptName] is the old [scriptName] followed by the path and
    [pathInfo] is the old [pathInfo] without exactly its first
    [length path] characters, so what follows the prefix, a leading slash
    included, is kept; nothing else of the request changes. A host-only
    mount has its application called on the request as it came in. What the
    mounted application returns is what the middleware function returns. *)
Theorem rewrite_before_dispatch
    (invoke : positive → Handler) (next : Handler)
    (ms : list Mount.MountPoint) (req : Request) (m : Mount.MountPoint) :
  Mount.first_match ms req = Some m →
  (∀ r, Mount.mount_loop ms req ≠ Mount.Return r) →
  (∀ p pi : string,
      Mount.path m = Some p → pathInfo req = Some pi →
      let req' := {| scriptName := scriptName req +:+ p;
                     pathInfo := Some (JS.slice pi (String.length p));
                     headers := headers req;
                     method := method req;
                     queryString := queryString req;
                     env := env req |} in
      Mount.mount_loop ms req = Mount.TailCall (Mount.CApp (Mount.app m)) req'
      ∧ Mount.mount invoke next ms req = invoke (Mount.app m) req'
      ∧ (∀ rest, pi = p +:+ rest →
           Mount.mount invoke next ms req
           = invoke (Mount.app m)
               {| scriptName := scriptName req +:+ p;
                  pathInfo := Some rest;
                  headers := headers req;
                  method := method req;
                  queryString := queryString req;
                  env := env req |}))
  ∧ (Mount.path m = None →
     Mount.mount_loop ms req = Mount.TailCall (Mount.CApp (Mount.app m)) req
     ∧ Mount.mount invoke next ms req = invoke (Mount.app m) req).
Proof.
  intros Hm Hno.
  assert (Hw : Mount.wants_redirect m req = false).
  { destruct (Mount.wants_redirect m req) eqn:Hw; [|done].
    exfalso. eapply Hno. rewrite mount_loop_first_match, Hm.
    unfold Mount.dispatch_to. by rewrite Hw. }
  assert (Hloop : Mount.mount_loop ms req = Mount.dispatch_to m req).
  { by rewrite mount_loop_first_match, Hm. }
  split.
  - intros p pi Hp Hpi req'.
    assert (Hl : Mount.mount_loop ms req =
                 Mount.TailCall (Mount.CApp (Mount.app m)) req').
    { rewrite Hloop. unfold Mount.dispatch_to. rewrite Hw, Hp.
      unfold req'. destruct p as [|c p].
      - cbn [JS.truthy JS.truthy_str String.length JS.slice].
        rewrite append_empty_r, <- Hpi. by destruct req.
      - cbn [JS.truthy JS.truthy_str JS.to_String pathInfo scriptName
               set_path].
        rewrite Hpi. reflexivity. }
    assert (Hmount : Mount.mount invoke next ms req
                     = invoke (Mount.app m) req').
    { by rewrite mount_of_loop, Hl. }
    split; [exact Hl|]. split; [exact Hmount|].
    intros rest ->. rewrite Hmount. unfold req'. by rewrite slice_append.
  - intros Hp.
    assert (Hl : Mount.mount_loop ms req =
                 Mount.TailCall (Mount.CApp (Mount.app m)) req).
    { rewrite Hloop. unfold Mount.dispatch_to. by rewrite Hw, Hp. }
    split; [exact Hl|]. by rewrite mount_of_loop, Hl.
Qed.

(** ** The dispatch loop of lib/stick/middleware/mount.js *)

Lemma stick_loop_no_match (ms : list StickMount.MountPoint) (req : Request) :
  Forall (λ m, match_ (StickMount.spec m) req = false) ms →
  StickMount.mount_loop ms req = StickMount.TailCall StickMount.CNext req.
Proof.
  induction 1 as [|m ms Hm _ IH]; [reflexivity|].
  simpl. by rewrite Hm.
Qed.

Lemma mount_loop_no_match (ms : list Mount.MountPoint) (req : Request) :
  Forall (λ m, match_ (Mount.spec m) req = false) ms →
  Mount.mount_loop ms req = Mount.TailCall Mount.CNext req.
Proof.
  induction 1 as [|m ms Hm _ IH]; [reflexivity|].
  simpl. by rewrite Hm.
Qed.

(** C4. A request that no registered mount matches is handed to the wrapped
    chain [next], and the dispatcher has not touched it: in
    lib/middleware/mount.js [next] receives the very request that came in;
    in lib/stick/middleware/mount.js it receives a request with the same
    [scriptName], [pathInfo], [headers], [method] and [queryString] (only
    the resolver in [env] has been installed). The dispatcher returns what
    [next] returns, and when [next] leaves its request alone the request is
    after the call what [next] was given. *)
Theorem no_match_falls_through
    (invoke : positive → Handler) (next : Handler) (req : Request) :
  (∀ ms : list Mount.MountPoint,
      Forall (λ m, match_ (Mount.spec m) req = false) ms →
      Mount.mount_loop ms req = Mount.TailCall Mount.CNext req
      ∧ Mount.mount invoke next ms req = next req
      ∧ (snd (next req) = req →
         snd (Mount.mount invoke next ms req) = req))
  ∧ (∀ st : StickMount.State,
      Forall (λ m, match_ (StickMount.spec m) req = false)
        (StickMount.mounts st) →
      ∃ req',
        StickMount.mount_outcome st req =
          StickMount.TailCall StickMount.CNext req'
        ∧ StickMount.mount invoke next st req = next req'
        ∧ (snd (next req') = req' →
           snd (StickMount.mount invoke next st req) = req')
        ∧ scriptName req' = scriptName req
        ∧ pathInfo req' = pathInfo req
        ∧ headers req' = headers req
        ∧ method req' = method req
        ∧ queryString req' = queryString req).
Proof.
  split.
  - intros ms Hms. apply mount_loop_no_match in Hms as Hl.
    split; [exact Hl|]. unfold Mount.mount. by rewrite Hl.
  - intros st Hms. exists (StickMount.install (StickMount.reverse st) req).
    assert (Hl : StickMount.mount_outcome st req =
                 StickMount.TailCall StickMount.CNext
                   (StickMount.install (StickMount.reverse st) req)).
    { unfold StickMount.mount_outcome. apply stick_loop_no_match.
      eapply Forall_impl; [exact Hms|]. by intros m Hm. }
    split; [exact Hl|].
    assert (Hm : StickMount.mount invoke next st req =
                 next (StickMount.install (StickMount.reverse st) req)).
    { unfold StickMount.mount. by rewrite Hl. }
    split; [exact Hm|]. split; [|done]. by rewrite Hm.
Qed.

(** ** Sorting with a comparator that subtracts keys *)

Section SortByKey.
Context {A : Type} (key : A → nat).

Local Abbreviation key_desc := (SortOrder.key_desc key).
Local Abbreviation desc := (SortOrder.desc key).

Lemma sort_insert_perm (x : A) (l : list A) :
  JS.sort_insert key_desc x l ≡ₚ x :: l.
Proof.
  induction l as [|y l IH]; [done|]. simpl.
  destruct (key_desc x y <=? 0)%Z; [done|].
  rewrite IH. apply Permutation_swap.
Qed.

Lemma sort_insert_first (x : A) (l : list A) :
  Forall (desc x) l → JS.sort_insert key_desc x l = x :: l.
Proof.
  destruct 1 as [|y l Hy _]; [done|]. simpl.
  destruct (Z.leb_spec (key_desc x y) 0) as [_|Hlt]; [done|].
  unfold key_desc, desc in *. lia.
Qed.

Lemma sort_insert_sorted (x : A) (l : list A) :
  StronglySorted desc l → StronglySorted desc (JS.sort_insert key_desc x l).
Proof.
  induction 1 as [|y l Hl IH Hy]; simpl.
  - repeat constructor.
  - destruct (Z.leb_spec (key_desc x y) 0) as [Hle|Hlt].
    + constructor; [by constructor|].
      assert (desc x y) by (unfold key_desc, desc in *; lia).
      constructor; [done|].
      eapply Forall_impl; [exact Hy|]. unfold desc in *. intros z ?. lia.
    + constructor; [exact IH|]. rewrite sort_insert_perm.
      constructor; [unfold key_desc, desc in *; lia | exact Hy].
Qed.

Lemma Array_sort_sorted (l : list A) :
  StronglySorted desc (JS.Array_sort key_desc l).
Proof.
  induction l as [|x l IH]; simpl; [constructor|].
  by apply sort_insert_sorted.
Qed.

Lemma Array_sort_perm (l : list A) : JS.Array_sort key_desc l ≡ₚ l.
Proof.
  induction l as [|x l IH]; simpl; [done|].
  by rewrite sort_insert_perm, IH.
Qed.

(** Sorting an array that is in order leaves it as it is. *)
Lemma Array_sort_id (l : list A) :
  StronglySorted desc l → JS.Array_sort key_desc l = l.
Proof.
  induction 1 as [|x l Hl IH Hx]; simpl; [done|].
  rewrite IH. by apply sort_insert_first.
Qed.

(** Pushing an element on an array in order and sorting: the element lands
    after every element with a key at least as great and before every
    element with a smaller key; the others keep their places. *)
Lemma Array_sort_push (l : list A) (x : A) :
  StronglySorted desc l →
  ∃ l1 l2,
    l = l1 ++ l2
    ∧ JS.Array_sort key_desc (l ++ [x]) = l1 ++ x :: l2
    ∧ Forall (λ y, key x ≤ key y) l1
    ∧ Forall (λ y, key y < key x) l2.
Proof.
  induction 1 as [|y l Hl IH Hy].
  - exists [], []. by repeat split.
  - destruct IH as (l1 & l2 & -> & Hs & H1 & H2).
    change (JS.Array_sort key_desc ((y :: l1 ++ l2) ++ [x]))
      with (JS.sort_insert key_desc y
              (JS.Array_sort key_desc ((l1 ++ l2) ++ [x]))).
    rewrite Hs.
    destruct (le_lt_dec (key x) (key y)) as [Hle|Hlt].
    + exists (y :: l1), l2. repeat split; [|by constructor|done].
      rewrite sort_insert_first; [done|].
      apply Forall_app in Hy as [Hy1 Hy2].
      apply Forall_app. split; [done|]. by constructor.
    + assert (l1 = []) as ->.
      { destruct l1 as [|z l1]; [done|]. exfalso.
        inversion H1 as [|? ? Hz _]; subst.
        inversion Hy as [|? ? Hz' _]; subst. unfold desc in *. lia. }
      exists [], (y :: l2). simpl in *. repeat split; [|done|].
      * destruct (Z.leb_spec (key_desc y x) 0) as [Hle|_];
          [unfold key_desc in Hle; lia|].
        f_equal. by apply sort_insert_first.
      * by constructor.
Qed.

(** The sort is stable: for every key, the elements with that key keep
    the order they had. *)
Lemma sort_insert_filter (x : A) (l : list A) (k : nat) :
  filter (λ y, key y = k) (JS.sort_insert key_desc x l) =
  filter (λ y, key y = k) (x :: l).
Proof.
  induction l as [|y l IH]; [done|]. simpl.
  destruct (Z.leb_spec (key_desc x y) 0) as [_|Hlt]; [done|].
  rewrite (filter_cons _ y), IH, !filter_cons.
  destruct (decide (key y = k)), (decide (key x = k)); try done.
  unfold SortOrder.key_desc in Hlt. lia.
Qed.

Lemma Array_sort_stable (l : list A) (k : nat) :
  filter (λ y, key y = k) (JS.Array_sort key_desc l) =
  filter (λ y, key y = k) l.
Proof.
  induction l as [|x l IH]; [done|]. simpl.
  by rewrite sort_insert_filter, !filter_cons, IH.
Qed.

End SortByKey.

(** ** Registration in lib/middleware/mount.js *)

Section Registration.
Variable require : string → option positive.
Variable app : positive.

(** A call that registers a mount pushes it and sorts; any other call
    throws and changes nothing. *)
Lemma app_mount_registered (c : Mount.Call) (st : Mount.State) :
  match Mount.registered require c with
  | Some m =>
      ∃ info,
        Mount.app_mount require app (Mount.call_spec c) (Mount.call_target c)
          (Mount.call_noRedirect c) st =
        (None,
         {| Mount.mounts :=
              JS.Array_sort Mount.mostSpecificPathFirst (Mount.mounts st ++ [m]);
            Mount.mountInfo := info |})
  | None =>
      ∃ e,
        Mount.app_mount require app (Mount.call_spec c) (Mount.call_target c)
          (Mount.call_noRedirect c) st = (Some e, st)
  end.
Proof.
  unfold Mount.registered, Mount.app_mount.
  destruct (spec_of_arg (Mount.call_spec c)) as [e|spec0]; [by exists e|].
  destruct (Mount.resolveApp require (Mount.call_target c)) as [e|resolved];
    [by exists e | by eexists].
Qed.

Lemma run_calls_snoc (calls : list Mount.Call) (c : Mount.Call)
    (st : Mount.State) :
  Mount.run_calls require app (calls ++ [c]) st =
  Mount.run_calls require app [c] (Mount.run_calls require app calls st).
Proof. unfold Mount.run_calls. by rewrite foldl_app. Qed.

Lemma run_calls_one (c : Mount.Call) (st : Mount.State) :
  Mount.mounts (Mount.run_calls require app [c] st) =
  match Mount.registered require c with
  | Some m =>
      JS.Array_sort Mount.mostSpecificPathFirst (Mount.mounts st ++ [m])
  | None => Mount.mounts st
  end.
Proof.
  pose proof (app_mount_registered c st) as H. unfold Mount.run_calls. simpl.
  destruct (Mount.registered require c) as [m|];
    destruct H as [x ->]; reflexivity.
Qed.

Lemma run_calls_sorted (calls : list Mount.Call) (info0 : gmap positive _) :
  StronglySorted (SortOrder.desc Mount.slashes)
    (Mount.mounts (Mount.run_calls require app calls
                     {| Mount.mounts := []; Mount.mountInfo := info0 |})).
Proof.
  induction calls as [|c calls IH] using rev_ind; [constructor|].
  rewrite run_calls_snoc, run_calls_one.
  destruct (Mount.registered require c) as [m|]; [|exact IH].
  apply (Array_sort_sorted Mount.slashes).
Qed.

(** C1. After any series of calls of [app.mount] on a fresh registry, the
    [mounts] array is in descending order of the number of slashes of each
    mount's path (a mount without path counting as 0), and for every number
    of slashes the mounts with that number appear in the order they were
    registered. One more call puts its mount after every mount with at least
    as many slashes and before every mount with fewer, and moves no other
    mount. *)
Theorem registry_most_specific_first
    (info0 : gmap positive (list Mount.Link)) (calls : list Mount.Call) :
  let st := Mount.run_calls require app calls
              {| Mount.mounts := []; Mount.mountInfo := info0 |} in
  StronglySorted (λ m1 m2, Mount.slashes m2 ≤ Mount.slashes m1)
    (Mount.mounts st)
  ∧ (∀ m, Mount.path m = None → Mount.slashes m = 0)
  ∧ (∀ k : nat,
        filter (λ m, Mount.slashes m = k) (Mount.mounts st) =
        filter (λ m, Mount.slashes m = k)
          (omap (Mount.registered require) calls))
  ∧ (∀ (c : Mount.Call) (m : Mount.MountPoint),
        Mount.registered require c = Some m →
        ∃ l1 l2,
          Mount.mounts st = l1 ++ l2
          ∧ Mount.mounts (Mount.run_calls require app [c] st) = l1 ++ m :: l2
          ∧ Forall (λ m', Mount.slashes m ≤ Mount.slashes m') l1
          ∧ Forall (λ m', Mount.slashes m' < Mount.slashes m) l2).
Proof.
  intros st. split; [apply run_calls_sorted|].
  split; [intros m Hm; unfold Mount.slashes; by rewrite Hm|].
  split.
  - intros k. unfold st. clear st.
    induction calls as [|c calls' IH] using rev_ind; [reflexivity|].
    rewrite run_calls_snoc, run_calls_one, omap_app. simpl.
    destruct (Mount.registered require c) as [m|]; simpl.
    + rewrite (Array_sort_stable Mount.slashes).
      by rewrite !filter_app, IH.
    + by rewrite app_nil_r.
  - intros c m Hc. rewrite run_calls_one, Hc.
    destruct (Array_sort_push Mount.slashes (Mount.mounts st) m)
      as (l1 & l2 & H1 & H2 & H3 & H4); [apply run_calls_sorted|].
    exists l1, l2. by repeat split.
Qed.

(** C5, as amended. [app.mount] throws "Missing spec" exactly when the spec
    argument is falsy and not a string; whenever it throws, the registry and
    the reverse links are as they were. A string, even empty, or an object,
    even one with neither path nor host, does not throw "Missing spec":
    with a target that resolves, a mount is registered. *)
Theorem missing_spec_iff_falsy
    (arg : SpecArg) (target : Target) (noRedirect : bool) (st : Mount.State) :
  (fst (Mount.app_mount require app arg target noRedirect st)
     = Some Missing_spec ↔ arg = SpecFalsy)
  ∧ (∀ e, fst (Mount.app_mount require app arg target noRedirect st) = Some e →
          snd (Mount.app_mount require app arg target noRedirect st) = st)
  ∧ (arg ≠ SpecFalsy →
     ∀ a, Mount.resolveApp require target = inr a →
          ∃ m st',
            Mount.app_mount require app arg target noRedirect st = (None, st')
            ∧ m ∈ Mount.mounts st' ∧ Mount.app m = a).
Proof.
  unfold Mount.app_mount. repeat split.
  - unfold Mount.resolveApp.
    destruct arg; simpl; [done| |];
      (destruct target as [a|id]; [|destruct (require id)]); simpl;
      by intros [=].
  - by intros ->.
  - intros e. destruct (spec_of_arg arg); [done|].
    by destruct (Mount.resolveApp require target).
  - intros Harg a Ha. rewrite Ha.
    destruct (spec_of_arg arg) as [e|spec0] eqn:E; [by destruct arg|].
    exists (Mount.new_mount (normalize spec0) noRedirect a). eexists.
    split; [reflexivity|]. split; [|reflexivity]. simpl.
    rewrite (Array_sort_perm Mount.slashes).
    apply elem_of_app. right. by apply list_elem_of_singleton.
Qed.

End Registration.

(** ** Reverse lookup *)

Lemma append_assoc (a b c : string) : (a +:+ b) +:+ c = a +:+ (b +:+ c).
Proof.
  induction a as [|x a IH]; [reflexivity|].
  change (String x ((a +:+ b) +:+ c) = String x (a +:+ (b +:+ c))).
  by rewrite IH.
Qed.

(** The inner loop picks the first link, in array order, whose parent is
    set and has not been visited. *)
Lemma first_unseen_first (ms : list Mount.Link) (seen : list positive)
    (p : positive) (l : Mount.Link) :
  Mount.first_unseen ms seen = Some (p, l) →
  ∃ before after,
    ms = before ++ l :: after
    ∧ Mount.parent l = Some p
    ∧ (p ∉ seen)
    ∧ Forall (λ l', ∀ q, Mount.parent l' = Some q → q ∈ seen) before.
Proof.
  induction ms as [|l0 ms IH]; [discriminate|]. simpl.
  destruct (Mount.parent l0) as [q|] eqn:Hq.
  - destruct (bool_decide (q ∈ seen)) eqn:Hs.
    + intros (before & after & -> & H1 & H2 & H3)%IH.
      exists (l0 :: before), after. repeat split; [done..|].
      constructor; [|done]. intros q' Hq'.
      apply bool_decide_eq_true in Hs. congruence.
    + intros [= <- <-]. exists [], ms. repeat split; [done| |constructor].
      by apply bool_decide_eq_false in Hs.
  - intros (before & after & -> & H1 & H2 & H3)%IH.
    exists (l0 :: before), after. repeat split; [done..|].
    constructor; [|done]. intros q' Hq'. congruence.
Qed.

Lemma lookup_walk_None (fuel : nat) (info : gmap positive (list Mount.Link))
    (seen : list positive) (path : string) :
  Mount.lookup_walk fuel info None seen path = Some path.
Proof. by destruct fuel. Qed.

(** Every iteration visits an application that was not visited before, so
    the loop ends within as many iterations as there are unvisited
    applications carrying links, plus one. *)
Lemma lookup_walk_total (fuel : nat) (info : gmap positive (list Mount.Link))
    (ms : option (list Mount.Link)) (seen : list positive) (path : string) :
  size (dom info ∖ list_to_set seen) < fuel →
  is_Some (Mount.lookup_walk fuel info ms seen path).
Proof.
  revert ms seen path.
  induction fuel as [|fuel IH]; intros ms seen path Hsz; [lia|].
  destruct ms as [ms|]; [|by eexists]. simpl.
  destruct (Mount.first_unseen ms seen) as [[p l]|] eqn:Hf; [|by eexists].
  apply first_unseen_first in Hf as (_ & _ & _ & _ & Hp & _).
  destruct (info !! p) as [ms'|] eqn:Hi;
    [|rewrite lookup_walk_None; by eexists].
  apply IH.
  assert (Hin : p ∈ dom info) by (by apply elem_of_dom).
  eapply Nat.lt_le_trans; [apply subset_size | apply Nat.lt_succ_r, Hsz].
  split.
  - intros k [Hk Hn]%elem_of_difference. apply elem_of_difference.
    split; [done|]. rewrite elem_of_list_to_set in *.
    intros Hseen. apply Hn. apply elem_of_app. by left.
  - intros Hsub.
    assert (p ∈ dom info ∖ list_to_set (C:=gset positive) (seen ++ [p]))
      as [_ Hn]%elem_of_difference.
    { apply Hsub. apply elem_of_difference. split; [done|].
      by rewrite elem_of_list_to_set. }
    apply Hn. rewrite elem_of_list_to_set. apply elem_of_app. right.
    by apply list_elem_of_singleton.
Qed.

(** More fuel does not change a result. *)
Lemma lookup_walk_mono (n m : nat) (info : gmap positive (list Mount.Link))
    (ms : option (list Mount.Link)) (seen : list positive) (path s : string) :
  Mount.lookup_walk n info ms seen path = Some s → n ≤ m →
  Mount.lookup_walk m info ms seen path = Some s.
Proof.
  revert m ms seen path.
  induction n as [|n IH]; intros m ms seen path H Hle.
  - destruct ms as [ms|]; [|by rewrite lookup_walk_None]. simpl in H.
    destruct (Mount.first_unseen ms seen) as [[p l]|] eqn:Hf; [done|].
    destruct m; simpl; by rewrite Hf.
  - destruct m as [|m]; [lia|].
    destruct ms as [ms|]; [|done]. simpl in *.
    destruct (Mount.first_unseen ms seen) as [[p l]|]; [|done].
    apply IH; [done | lia].
Qed.

(** The walk reads [mountInfo] of unvisited applications only. *)
Lemma lookup_walk_ext (fuel : nat) (info1 info2 : gmap positive (list Mount.Link))
    (ms : option (list Mount.Link)) (seen : list positive) (path : string) :
  (∀ k, k ∉ seen → info1 !! k = info2 !! k) →
  Mount.lookup_walk fuel info1 ms seen path =
  Mount.lookup_walk fuel info2 ms seen path.
Proof.
  revert ms seen path.
  induction fuel as [|fuel IH]; intros ms seen path Hext.
  - destruct ms as [ms|]; [|done]. simpl.
    by destruct (Mount.first_unseen ms seen) as [[p l]|].
  - destruct ms as [ms|]; [|done]. simpl.
    destruct (Mount.first_unseen ms seen) as [[p l]|] eqn:Hf; [|done].
    apply first_unseen_first in Hf as (_ & _ & _ & _ & Hp & _).
    rewrite (Hext p Hp). apply IH.
    intros k Hk. apply Hext. intros Hin. apply Hk.
    apply elem_of_app. by left.
Qed.

(** The walk prepends to the path it is given. *)
Lemma lookup_walk_acc (fuel : nat) (info : gmap positive (list Mount.Link))
    (ms : option (list Mount.Link)) (seen : list positive) (path : string) :
  Mount.lookup_walk fuel info ms seen path =
  (λ s, s +:+ path) <$> Mount.lookup_walk fuel info ms seen "".
Proof.
  revert ms seen path.
  induction fuel as [|fuel IH]; intros ms seen path.
  - destruct ms as [ms|]; [|done]. simpl.
    by destruct (Mount.first_unseen ms seen) as [[p l]|].
  - destruct ms as [ms|]; [|done]. simpl.
    destruct (Mount.first_unseen ms seen) as [[p l]|]; [|done].
    rewrite (IH _ _ (_ +:+ path)), (IH _ _ (_ +:+ "")).
    destruct (Mount.lookup_walk fuel info (info !! p) (seen ++ [p]) "")
      as [s|]; [|done].
    simpl. by rewrite append_empty_r, append_assoc.
Qed.

Lemma lookup_handler_total (require : string → option positive)
    (info : gmap positive (list Mount.Link)) (a : positive) :
  ∃ s, Mount.lookup require info (THandler a) = Some (inr s).
Proof.
  unfold Mount.lookup, Mount.lookup_fuel. simpl.
  destruct (info !! a) as [ms|] eqn:Ha; [|by eexists].
  destruct (lookup_walk_total (size info) info (Some ms) [a] "") as [s Hs].
  - assert (a ∈ dom info) by (by apply elem_of_dom).
    rewrite <- (size_dom (D:=gset positive) info).
    apply subset_size. split.
    + by intros k [Hk _]%elem_of_difference.
    + intros Hsub. apply Hsub in H as [_ Hn]%elem_of_difference.
      apply Hn. rewrite elem_of_list_to_set. by apply list_elem_of_singleton.
  - exists s. by rewrite Hs.
Qed.

(** C8. For every handler and every assignment of links to applications,
    cyclic ones included, [lookup] ends, throws nothing and returns a
    string: the loop finishes within [size info] iterations and more fuel
    gives the same answer. A handler without links ([mountInfo] undefined,
    or an empty array) gets the empty string. In the two-application cycle
    (the link of [a] names [b] as parent, the link of [b] names [a]) the
    walk from [a] follows the one link to [b] and stops there. *)
Theorem lookup_terminates
    (require : string → option positive)
    (info : gmap positive (list Mount.Link)) (a : positive) :
  (∃ s, Mount.lookup require info (THandler a) = Some (inr s))
  ∧ (∀ fuel, size info ≤ fuel →
       Mount.lookup_fuel require fuel info (THandler a) =
       Mount.lookup require info (THandler a))
  ∧ (info !! a = None ∨ info !! a = Some [] →
     Mount.lookup require info (THandler a) = Some (inr ""))
  ∧ (∀ (b : positive) (pa pb ha hb : option string),
       a ≠ b →
       Mount.lookup require
         (<[a := [{| Mount.parent := Some b;
                     Mount.link_path := pa;
                     Mount.link_host := ha |}]]>
            {[b := [{| Mount.parent := Some a;
                       Mount.link_path := pb;
                       Mount.link_host := hb |}]]})
         (THandler a)
       = Some (inr (JS.or_else pa ""))).
Proof.
  split; [apply lookup_handler_total|]. split; [|split].
  - intros fuel Hfuel.
    destruct (lookup_handler_total require info a) as [s Hs].
    rewrite Hs. unfold Mount.lookup, Mount.lookup_fuel in *. simpl in *.
    destruct (info !! a) as [ms|]; [|done].
    destruct (Mount.lookup_walk (size info) info (Some ms) [a] "")
      as [s'|] eqn:Hw; [|done].
    by rewrite (lookup_walk_mono _ _ _ _ _ _ _ Hw Hfuel).
  - unfold Mount.lookup, Mount.lookup_fuel. simpl.
    intros [-> | ->]; [done|]. by destruct (size info).
  - intros b pa pb ha hb Hab.
    unfold Mount.lookup, Mount.lookup_fuel. simpl.
    rewrite lookup_insert_eq.
    rewrite map_size_insert_None
      by (rewrite lookup_singleton_ne; congruence).
    rewrite map_size_singleton. simpl.
    rewrite bool_decide_eq_false_2
      by (intros ->%list_elem_of_singleton; congruence).
    rewrite lookup_insert_ne by done. rewrite lookup_singleton_eq. simpl.
    rewrite bool_decide_eq_true_2 by (apply elem_of_cons; by left).
    simpl. by rewrite append_empty_r.
Qed.

Section ReverseLinks.
Variable require : string → option positive.



End ReverseLinks.

(** ** The module-id resolver of lib/stick/middleware/mount.js *)

Lemma encodeURI_unescaped (s : string) :
  JS.all_unescaped s = true → JS.encodeURI s = s.
Proof.
  induction s as [|c s IH]; [done|]. simpl.
  intros [Hc Hs]%andb_true_iff. rewrite Hc. by rewrite IH.
Qed.

(** The loop never touches [req.env]. *)
Lemma stick_loop_env (ms : list StickMount.MountPoint) (req req' : Request)
    (f : StickMount.Callee) :
  StickMount.mount_loop ms req = StickMount.TailCall f req' →
  env req' = env req.
Proof.
  induction ms as [|m ms IH]; simpl; [by intros [= _ <-]|].
  destruct (match_ (StickMount.spec m) req); [|exact IH].
  unfold StickMount.dispatch_to.
  destruct (_ && _); [done|].
  destruct (JS.truthy (StickMount.path m)); [|by intros [= _ <-]].
  simpl. destruct (pathInfo req); [|done]. by intros [= _ <-].
Qed.

(** C9, as amended. The resolver installed in [req.env] maps a module id
    that was registered with a path mount to [encodeURI] of the enclosing
    [scriptName] followed by the canonical path of that mount, which is the
    plain concatenation when it holds only characters that [encodeURI]
    leaves alone. For an id it does not know (or one registered with a
    host-only mount) it gives what the resolver found in [req.env] gives,
    when there is one, and the string ["/_" + id + "_(unresolved_module)"]
    otherwise; it is a total function. Registering a module id records the
    normalised spec under that id, and the resolver is in the environment
    of the request that the mounted application or [next] receives. *)
Theorem lookupModule_resolves
    (require : string → option positive) (st : StickMount.State)
    (req : Request) :
  ∃ f : string → string,
    lookupModule (env (StickMount.install (StickMount.reverse st) req)) = Some f
    ∧ (∀ id sp c,
         StickMount.reverse st !! id = Some sp →
         spec_canonicalPath sp = Some c → c ≠ "" →
         f id = JS.encodeURI (scriptName req +:+ c)
         ∧ (JS.all_unescaped (scriptName req +:+ c) = true →
            f id = scriptName req +:+ c))
    ∧ (∀ id,
         StickMount.reverse st !! id = None
         ∨ (∃ sp, StickMount.reverse st !! id = Some sp
                  ∧ JS.truthy (spec_canonicalPath sp) = false) →
         f id = match lookupModule (env req) with
                | Some g => g id
                | None => "/_" +:+ id +:+ "_(unresolved_module)"
                end)
    ∧ (∀ arg id spec0,
         spec_of_arg arg = inr spec0 →
         StickMount.reverse
           (snd (StickMount.app_mount require arg (TModule id) st)) !! id
         = Some (normalize spec0))
    ∧ (∀ callee req',
         StickMount.mount_outcome st req = StickMount.TailCall callee req' →
         lookupModule (env req') = Some f).
Proof.
  eexists. split; [reflexivity|]. repeat split.
  - unfold StickMount.lookupModule_fn. rewrite H, H0. simpl.
    apply truthy_str_true in H1. by rewrite H1.
  - intros Hsafe. unfold StickMount.lookupModule_fn. rewrite H, H0. simpl.
    apply truthy_str_true in H1. rewrite H1. by apply encodeURI_unescaped.
  - intros id [Hid | (sp & Hid & Hc)];
      unfold StickMount.lookupModule_fn; rewrite Hid; [done|].
    by rewrite Hc.
  - intros arg id spec0 Harg. unfold StickMount.app_mount. rewrite Harg.
    destruct (require id); simpl; by rewrite lookup_insert_eq.
  - intros callee req' H. unfold StickMount.mount_outcome in H.
    apply stick_loop_env in H. by rewrite H.
Qed.

(** C9 as it is worded fails on a path with a character that [encodeURI]
    escapes: the module ["wiki"] mounted on ["/my app"] resolves, under the
    script name ["/base"], to ["/base/my%20app/"], which is not the script
    name followed by the canonical path ["/my app/"]. *)
Lemma lookupModule_not_plain_concatenation :
  let st := snd (StickMount.app_mount (λ _, Some 1%positive)
                   (SpecString "/my app") (TModule "wiki")
                   {| StickMount.mounts := []; StickMount.reverse := ∅ |}) in
  let req := {| scriptName := "/base"; pathInfo := Some "/";
                headers := λ _, None; method := "GET"; queryString := "";
                env := {| lookupModule := None |} |} in
  ∃ f sp,
    lookupModule (env (StickMount.install (StickMount.reverse st) req)) = Some f
    ∧ StickMount.reverse st !! "wiki" = Some sp
    ∧ spec_canonicalPath sp = Some "/my app/"
    ∧ f "wiki" = "/base/my%20app/"
    ∧ f "wiki" ≠ scriptName req +:+ "/my app/".
Proof.
  eexists _, _. split; [reflexivity|]. split; [by vm_compute|].
  split; [reflexivity|]. split; [by vm_compute|]. by vm_compute.
Qed.

(** * Worked examples *)

(** C1 on five mounts: ["/a"], ["/a/b/c"], a host-only mount, ["/x"] and
    ["/a/b/"] end up as ["/a/b/c"], ["/a/b"], ["/a"], ["/x"], host-only. *)
Lemma registry_most_specific_first_five :
  let st := Mount.run_calls Sample.no_module 1 Sample.five_calls
              {| Mount.mounts := []; Mount.mountInfo := ∅ |} in
  StronglySorted (λ m1 m2, Mount.slashes m2 ≤ Mount.slashes m1)
    (Mount.mounts st)
  ∧ Mount.path <$> Mount.mounts st
    = [Some "/a/b/c"; Some "/a/b"; Some "/a"; Some "/x"; None].
Proof.
  split.
  - exact (proj1 (registry_most_specific_first Sample.no_module 1 ∅
                    Sample.five_calls)).
  - vm_compute. reflexivity.
Defined.

(** C2 on ["/wiki"]: [GET /wiki?x=1] is answered with 303 and the
    canonical location, the request is as it came in, and handlers that
    would spoil the request and throw leave no trace. *)
Lemma redirect_on_missing_slash_wiki :
  Mount.mount (λ _, Probe.spoil) Probe.spoil (Sample.wiki false)
    (Sample.request "GET" (Some "/wiki") "x=1" None)
  = (Normal {| status := 303;
               resp_headers := [("location", "/app/wiki/?x=1")];
               body := ["See other: "; "/app/wiki/?x=1"] |},
     Sample.request "GET" (Some "/wiki") "x=1" None).
Proof.
  refine (proj2 (proj1 (proj2 (proj2
            (redirect_on_missing_slash (Sample.wiki false)
               (Sample.request "GET" (Some "/wiki") "x=1" None)
               (Mount.new_mount (normalize (Sample.path_spec "/wiki"))
                  false 2)
               "/wiki" _ _)))) _ (λ _, Probe.spoil) Probe.spoil).
  - vm_compute. reflexivity.
  - reflexivity.
  - repeat split.
Defined.

(** C3 on ["/wiki"]: [GET /wiki/Page] reaches the mounted application with
    [scriptName] ["/app/wiki"] and [pathInfo] ["/Page"]. *)
Lemma rewrite_before_dispatch_wiki :
  Mount.mount (λ _, Sample.echo) Probe.spoil (Sample.wiki false)
    (Sample.request "GET" (Some "/wiki/Page") "" None)
  = Sample.echo
      {| scriptName := "/app/wiki";
         pathInfo := Some "/Page";
         headers := headers (Sample.request "GET" (Some "/wiki/Page") "" None);
         method := "GET";
         queryString := "";
         env := {| lookupModule := None |} |}.
Proof.
  refine (proj2 (proj2 (proj1 (rewrite_before_dispatch
                   (λ _, Sample.echo) Probe.spoil (Sample.wiki false)
                   (Sample.request "GET" (Some "/wiki/Page") "" None)
                   (Mount.new_mount (normalize (Sample.path_spec "/wiki"))
                      false 2) _ _)
                 "/wiki" "/wiki/Page" _ _)) "/Page" _).
  - vm_compute. reflexivity.
  - intros r H. vm_compute in H. discriminate H.
  - reflexivity.
  - reflexivity.
  - reflexivity.
Defined.

(** C3 as it is worded fails on a request without [pathInfo]: the mount
    registered as ["//"], whose path is ["/"], matches it (a [pathInfo] that
    is missing is tested as ["/"]) and no redirect is issued, but the
    rewriting calls [slice] on undefined after [scriptName] has been
    extended: the middleware function throws a TypeError and the mounted
    application is not called. *)
Lemma rewrite_throws_without_pathInfo :
  let ms := Mount.mounts
              (Mount.run_calls Sample.no_module 1
                 [Sample.call (SpecString "//") 2 false] Sample.fresh) in
  let req := Sample.request "POST" None "" None in
  let m := Mount.new_mount (normalize (Sample.path_spec "//")) false 2 in
  Mount.first_match ms req = Some m
  ∧ Mount.path m = Some "/"
  ∧ (∀ r, Mount.mount_loop ms req ≠ Mount.Return r)
  ∧ (∀ (invoke : positive → Handler) (next : Handler),
       Mount.mount invoke next ms req
       = (Abrupt TypeError,
          {| scriptName := "/app/";
             pathInfo := None;
             headers := headers req;
             method := "POST";
             queryString := "";
             env := {| lookupModule := None |} |})).
Proof.
  split; [vm_compute; reflexivity|]. split; [reflexivity|]. split.
  - intros r H. vm_compute in H. discriminate H.
  - intros invoke next. reflexivity.
Qed.


(** C10 on ["/wiki"]: a request without [pathInfo] fails its path test. *)
Lemma empty_pathInfo_is_root_wiki :
  path_test (normalize (Sample.path_spec "/wiki"))
    (Sample.request "GET" None "" None) = false.
Proof.
  refine (proj1 (proj2 (proj2 (proj2
            (empty_pathInfo_is_root (Sample.request "GET" None "" None) _))))
            (Sample.path_spec "/wiki") "/wiki" _ _).
  - left. reflexivity.
  - reflexivity.
  - vm_compute. lia.
Defined.

(** C4 on ["/wiki"]: [GET /blog] goes to [next] as it came in. *)
Lemma no_match_falls_through_blog :
  Mount.mount (λ _, Sample.echo) Sample.echo (Sample.wiki false)
    (Sample.request "GET" (Some "/blog") "" None)
  = Sample.echo (Sample.request "GET" (Some "/blog") "" None).
Proof.
  refine (proj1 (proj2 (proj1 (no_match_falls_through (λ _, Sample.echo)
                   Sample.echo (Sample.request "GET" (Some "/blog") "" None))
                 (Sample.wiki false) _))).
  repeat constructor.
Defined.

(** C5 on [undefined]: the call throws and the state is as it was. *)
Lemma missing_spec_iff_falsy_undefined :
  Mount.app_mount Sample.no_module 1 SpecFalsy (THandler 2) false Sample.fresh
  = (Some Missing_spec, Sample.fresh).
Proof.
  pose proof (missing_spec_iff_falsy Sample.no_module 1 SpecFalsy (THandler 2)
                false Sample.fresh) as (Hthrow & Hsame & _).
  destruct (Mount.app_mount Sample.no_module 1 SpecFalsy (THandler 2) false
              Sample.fresh) as [e st] eqn:E.
  simpl in *. rewrite (proj2 Hthrow eq_refl) in *.
  by rewrite (Hsame Missing_spec eq_refl).
Defined.


(** C8 on a cycle: application 1 mounted by 2 on ["/a"], 2 mounted by 1 on
    ["/b"]. *)
Lemma lookup_terminates_cycle :
  Mount.lookup Sample.no_module
    (<[1%positive := [{| Mount.parent := Some 2%positive;
                         Mount.link_path := Some "/a";
                         Mount.link_host := None |}]]>
       {[2%positive := [{| Mount.parent := Some 1%positive;
                           Mount.link_path := Some "/b";
                           Mount.link_host := None |}]]})
    (THandler 1)
  = Some (inr "/a").
Proof.
  refine (proj2 (proj2 (proj2 (lookup_terminates Sample.no_module ∅ 1)))
            2%positive (Some "/a") (Some "/b") None None _).
  discriminate.
Defined.

(** C9 on the module ["wiki"] mounted on ["/wiki"]: it resolves to
    ["/app/wiki/"], and the unknown module ["blog"] to the placeholder. *)
Lemma lookupModule_resolves_wiki :
  let st := snd (StickMount.app_mount Sample.any_module (SpecString "/wiki")
                   (TModule "wiki")
                   {| StickMount.mounts := []; StickMount.reverse := ∅ |}) in
  let req := Sample.request "GET" (Some "/") "" None in
  ∃ f,
    lookupModule (env (StickMount.install (StickMount.reverse st) req)) = Some f
    ∧ f "wiki" = "/app/wiki/"
    ∧ f "blog" = "/_blog_(unresolved_module)".
Proof.
  intros st req.
  destruct (lookupModule_resolves Sample.any_module st req)
    as (f & Hf & Hknown & Hunknown & _).
  exists f. split; [exact Hf|]. split.
  - refine (proj2 (Hknown "wiki" (normalize (Sample.path_spec "/wiki"))
                     "/wiki/" _ _ _) _).
    + vm_compute. reflexivity.
    + reflexivity.
    + discriminate.
    + vm_compute. reflexivity.
  - refine (Hunknown "blog" _). left. vm_compute. reflexivity.
Defined.

(** C5 as it is worded fails on the empty object and on the empty string:
    neither supplies a path or a host, and [app.mount] throws nothing and
    registers a mount for each. *)
Lemma missing_spec_not_thrown_for_empty_object :
  let result arg :=
    Mount.app_mount Sample.no_module 1 arg (THandler 2) false Sample.fresh in
  supplies_path_or_host (SpecObject Sample.empty_object) = false
  ∧ fst (result (SpecObject Sample.empty_object)) = None
  ∧ length (Mount.mounts (snd (result (SpecObject Sample.empty_object)))) = 1
  ∧ supplies_path_or_host (SpecString "") = false
  ∧ fst (result (SpecString "")) = None
  ∧ length (Mount.mounts (snd (result (SpecString "")))) = 1.
Proof. repeat split. Qed.

(** A request without [pathInfo] is matched by the mount registered as
    ["//"], whose path is ["/"]; the rewriting then calls [slice] on
    undefined, after [scriptName] has been extended. *)
Example absent_pathInfo_slice_throws :
  Mount.mount_loop
    (Mount.mounts
       (Mount.run_calls Sample.no_module 1
          [Sample.call (SpecString "//") 2 false] Sample.fresh))
    (Sample.request "GET" None "" None)
  = Mount.Raise TypeError
      (set_path (Sample.request "GET" None "" None) "/app/" None).
Proof. reflexivity. Qed.

(** A host-only mount and a GET request without [pathInfo]: both sides of
    the redirect comparison are undefined, and the location ends in the
    string form of undefined. *)
Example host_only_absent_pathInfo_redirects :
  Mount.mount_loop
    (Mount.mounts
       (Mount.run_calls Sample.no_module 1
          [Sample.call (SpecObject (Sample.host_spec "example.com")) 2 false]
          Sample.fresh))
    (Sample.request "GET" None "" (Some "www.example.com"))
  = Mount.Return (Mount.see_other "/appundefined").
Proof. reflexivity. Qed.

(** * Further properties *)

(** ** Paths: matching and normalisation *)

(** [String.prefix] is the prefix test. *)
Lemma prefix_iff (s1 s2 : string) :
  String.prefix s1 s2 = true ↔ ∃ rest, s2 = s1 +:+ rest.
Proof.
  revert s2. induction s1 as [|a s1 IH]; intros s2.
  - destruct s2; split; eauto.
  - destruct s2 as [|b s2]; cbn [String.prefix].
    + split; [done | by intros [rest H]].
    + destruct (ascii_dec a b) as [<-|Hab].
      * rewrite IH. split; intros [rest H]; exists rest.
        -- by rewrite H.
        -- by injection H.
      * split; [done|]. intros [rest H]. by injection H as <- _.
Qed.

(** On a non-empty [pathInfo], the path test of a registered mount with a
    non-empty path: the two are equal, or [pathInfo] goes on with a slash
    after the path. *)
Lemma path_test_prefix_iff (o : Spec) (req : Request) (p pi : string) :
  spec_path (normalize o) = Some p → p ≠ "" →
  pathInfo req = Some pi → pi ≠ "" →
  path_test (normalize o) req = true ↔
  pi = p ∨ ∃ rest, pi = p +:+ "/" +:+ rest.
Proof.
  intros Hp Hne Hpi Hpine. unfold path_test.
  rewrite (normalize_canonical o p Hp Hne), Hp, Hpi.
  apply truthy_str_true in Hne, Hpine.
  cbn [JS.truthy JS.or_else JS.to_String JS.strict_eq].
  rewrite Hne, Hpine. cbn [negb orb andb]. rewrite Hpine. cbn [andb].
  rewrite orb_true_iff, String.eqb_eq. unfold JS.startsWith.
  rewrite prefix_iff. split.
  - intros [H | [rest H]]; [by left | right].
    exists rest. by rewrite H, append_assoc.
  - intros [H | [rest H]]; [by left | right].
    exists rest. by rewrite H, append_assoc.
Qed.

(** X1. A registered mount with a non-empty path [p] accepts a non-empty
    [pathInfo] exactly when it is [p] itself or starts with [p] followed by
    a slash: the match stops at a segment boundary, so ["/wiki"] does not
    accept ["/wikipedia"]. *)
Theorem path_test_segment_boundary
    (o : Spec) (req : Request) (p pi : string) :
  spec_path (normalize o) = Some p → p ≠ "" →
  pathInfo req = Some pi → pi ≠ "" →
  (path_test (normalize o) req = true ↔
   pi = p ∨ ∃ rest, pi = p +:+ "/" +:+ rest)
  ∧ (∀ c rest, c ≠ "/"%char →
       pi = p +:+ String c rest → path_test (normalize o) req = false).
Proof.
  intros Hp Hne Hpi Hpine.
  pose proof (path_test_prefix_iff o req p pi Hp Hne Hpi Hpine) as Hiff.
  split; [exact Hiff|]. intros c rest Hc ->.
  destruct (path_test (normalize o) req); [|done].
  destruct (proj1 Hiff eq_refl) as [H | [rest' H]].
  - rewrite <- (append_empty_r p) in H at 2.
    by apply (inj (String.app p)) in H.
  - apply (inj (String.app p)) in H. injection H as ->. done.
Qed.

Lemma slice_0_m1_append_slash (p : string) :
  JS.slice_0_m1 (p +:+ "/") = p.
Proof.
  induction p as [|c p IH]; [reflexivity|].
  change (String c p +:+ "/") with (String c (p +:+ "/")).
  assert (∃ a t, p +:+ "/" = String a t) as (a & t & E).
  { destruct p as [|a t]; [by exists "/"%char, "" | by eexists a, _]. }
  rewrite E in IH |- *.
  change (String c (JS.slice_0_m1 (String a t)) = String c p).
  by rewrite IH.
Qed.

Lemma endsWith_append_slash (p : string) : JS.endsWith (p +:+ "/") "/" = true.
Proof. apply endsWith_suffix. by exists p. Qed.

(** Writing the path with or without its trailing slash gives the same
    normalised spec. *)
Lemma normalize_trailing_slash (p : string) (c c' h : option string) :
  p ≠ "" → JS.endsWith p "/" = false →
  normalize {| spec_path := Some (p +:+ "/");
               spec_canonicalPath := c;
               spec_host := h |}
  = normalize {| spec_path := Some p;
                 spec_canonicalPath := c';
                 spec_host := h |}.
Proof.
  intros Hne He. unfold normalize. cbn [spec_path JS.truthy JS.to_String].
  apply truthy_str_true in Hne. rewrite Hne, He, endsWith_append_slash.
  assert (JS.truthy_str (p +:+ "/") = true) as ->.
  { apply truthy_str_true. by destruct p. }
  simpl. by rewrite slice_0_m1_append_slash.
Qed.

(** X2. [app.mount(p + "/", target)] does what [app.mount(p, target)]
    does, in both files, for a non-empty path [p] that does not end with a
    slash: the same error or the same state. *)
Theorem mount_trailing_slash_insignificant
    (require : string → option positive) (app : positive) (p : string)
    (target : Target) (noRedirect : bool) :
  p ≠ "" → JS.endsWith p "/" = false →
  (∀ st : Mount.State,
      Mount.app_mount require app (SpecString (p +:+ "/")) target noRedirect st
      = Mount.app_mount require app (SpecString p) target noRedirect st)
  ∧ (∀ st : StickMount.State,
      StickMount.app_mount require (SpecString (p +:+ "/")) target st
      = StickMount.app_mount require (SpecString p) target st).
Proof.
  intros Hne He.
  pose proof (normalize_trailing_slash p None None None Hne He) as Hn.
  split; intros st.
  - unfold Mount.app_mount. cbn [spec_of_arg]. by rewrite Hn.
  - unfold StickMount.app_mount. cbn [spec_of_arg]. by rewrite Hn.
Qed.

Lemma normalize_host_again (h : option string) :
  (if JS.truthy (if JS.truthy h then h else None)
   then if JS.truthy h then h else None
   else None)
  = if JS.truthy h then h else None.
Proof. by destruct h as [[|c s]|]. Qed.

(** Normalising a normalised spec changes nothing unless the path it was
    given ended with two slashes. *)
Lemma normalize_idempotent (o : Spec) :
  (∀ p, spec_path o = Some p → JS.endsWith p "//" = false) →
  normalize (normalize o) = normalize o.
Proof.
  intros Hdouble. destruct o as [[p|] c h]; cbn [spec_path] in Hdouble.
  - specialize (Hdouble p eq_refl).
    destruct p as [|a p]; [unfold normalize; simpl; by destruct h as [[|]|]|].
    set (h' := if JS.truthy h then h else None).
    destruct (JS.endsWith (String a p) "/") eqn:He.
    + pose proof (slice_0_m1_slash _ He) as Hq.
      set (q := JS.slice_0_m1 (String a p)) in *.
      assert (E : normalize {| spec_path := Some (String a p);
                               spec_canonicalPath := c;
                               spec_host := h |}
                  = {| spec_path := Some q;
                       spec_canonicalPath := Some (String a p);
                       spec_host := h' |}).
      { unfold normalize.
        cbn [spec_path spec_host JS.truthy JS.truthy_str JS.to_String].
        by rewrite He. }
      rewrite E. unfold normalize.
      cbn [spec_path spec_canonicalPath spec_host JS.truthy JS.to_String].
      destruct (JS.truthy_str q) eqn:Hqt.
      * destruct (JS.endsWith q "/") eqn:Heq.
        -- apply endsWith_suffix in Heq as [r Hr].
           assert (JS.endsWith (String a p) "//" = true); [|congruence].
           apply endsWith_suffix. exists r. by rewrite Hq, Hr, append_assoc.
        -- cbn [spec_path spec_canonicalPath spec_host].
           unfold h'. by rewrite <- Hq, normalize_host_again.
      * cbn [spec_path spec_canonicalPath spec_host].
        unfold h'. by rewrite normalize_host_again.
    + assert (E : normalize {| spec_path := Some (String a p);
                               spec_canonicalPath := c;
                               spec_host := h |}
                  = {| spec_path := Some (String a p);
                       spec_canonicalPath := Some (String a p +:+ "/");
                       spec_host := h' |}).
      { unfold normalize.
        cbn [spec_path spec_host JS.truthy JS.truthy_str JS.to_String].
        by rewrite He. }
      rewrite E. unfold normalize.
      cbn [spec_path spec_canonicalPath spec_host JS.truthy JS.truthy_str
             JS.to_String].
      rewrite He. cbn [spec_path spec_canonicalPath spec_host].
      unfold h'. by rewrite normalize_host_again.
  - unfold normalize. simpl. by destruct h as [[|]|].
Qed.

(** X3. The spec object that [app.mount] has normalised in place can be
    passed to [app.mount] again and comes out unchanged, unless the path it
    was first given ended with two slashes: then each call strips one more
    slash. *)
Theorem spec_object_reuse (o : Spec) :
  ((∀ p, spec_path o = Some p → JS.endsWith p "//" = false) →
   normalize (normalize o) = normalize o)
  ∧ (∀ q, spec_path o = Some (q +:+ "//") →
       spec_path (normalize o) = Some (q +:+ "/")
       ∧ spec_path (normalize (normalize o)) = Some q).
Proof.
  split; [apply normalize_idempotent|]. intros q Hq.
  assert (Hstep : ∀ (r : string) (s : Spec),
             spec_path s = Some (r +:+ "/") →
             spec_path (normalize s) = Some r).
  { intros r s Hs. unfold normalize. rewrite Hs.
    cbn [JS.truthy JS.to_String].
    assert (JS.truthy_str (r +:+ "/") = true) as ->.
    { apply truthy_str_true. by destruct r. }
    rewrite endsWith_append_slash. simpl. by rewrite slice_0_m1_append_slash. }
  assert (H1 : spec_path (normalize o) = Some (q +:+ "/")).
  { apply Hstep. by rewrite Hq, append_assoc. }
  split; [exact H1 | by apply Hstep].
Qed.

(** ** Which mount the dispatcher picks *)

Lemma find_split {A : Type} (f : A → bool) (l : list A) (x : A) :
  List.find f l = Some x →
  ∃ l1 l2, l = l1 ++ x :: l2 ∧ f x = true ∧ Forall (λ y, f y = false) l1.
Proof.
  induction l as [|y l IH]; [discriminate|]. simpl.
  destruct (f y) eqn:Hy.
  - intros [= <-]. exists [], l. by repeat split.
  - intros (l1 & l2 & -> & Hx & Hl1)%IH.
    exists (y :: l1), l2. repeat split; [done|]. by constructor.
Qed.

Lemma find_none_all {A : Type} (f : A → bool) (l : list A) :
  Forall (λ y, f y = false) l → List.find f l = None.
Proof. induction 1 as [|y l Hy _ IH]; [done|]. simpl. by rewrite Hy. Qed.

Lemma find_app_none {A : Type} (f : A → bool) (l1 l2 : list A) :
  Forall (λ y, f y = false) l1 → List.find f (l1 ++ l2) = List.find f l2.
Proof. induction 1 as [|y l Hy _ IH]; [done|]. simpl. by rewrite Hy. Qed.

Section Selection.
Variable require : string → option positive.
Variable app : positive.

(** The registry holds the registered mounts, each once, and for every
    number of slashes in registration order. *)
Lemma run_calls_stable (info0 : gmap positive (list Mount.Link))
    (calls : list Mount.Call) (k : nat) :
  filter (λ m, Mount.slashes m = k)
    (Mount.mounts (Mount.run_calls require app calls
                     {| Mount.mounts := []; Mount.mountInfo := info0 |}))
  = filter (λ m, Mount.slashes m = k) (omap (Mount.registered require) calls).
Proof.
  induction calls as [|c calls IH] using rev_ind; [reflexivity|].
  rewrite run_calls_snoc, run_calls_one, omap_app. simpl.
  destruct (Mount.registered require c) as [m|]; simpl.
  - rewrite (Array_sort_stable Mount.slashes). by rewrite !filter_app, IH.
  - by rewrite app_nil_r.
Qed.

Lemma run_calls_perm (info0 : gmap positive (list Mount.Link))
    (calls : list Mount.Call) :
  Mount.mounts (Mount.run_calls require app calls
                  {| Mount.mounts := []; Mount.mountInfo := info0 |})
  ≡ₚ omap (Mount.registered require) calls.
Proof.
  induction calls as [|c calls IH] using rev_ind; [reflexivity|].
  rewrite run_calls_snoc, run_calls_one, omap_app. simpl.
  destruct (Mount.registered require c) as [m|]; simpl.
  - rewrite (Array_sort_perm Mount.slashes). by rewrite IH.
  - by rewrite app_nil_r.
Qed.

(** X4. The mount the dispatcher stops at has the greatest number of
    slashes among the registered mounts that match the request, and among
    the matching mounts with that number of slashes it is the one that was
    registered first. *)
Theorem dispatch_picks_most_specific
    (info0 : gmap positive (list Mount.Link)) (calls : list Mount.Call)
    (req : Request) (m : Mount.MountPoint) :
  let st := Mount.run_calls require app calls
              {| Mount.mounts := []; Mount.mountInfo := info0 |} in
  let registered := omap (Mount.registered require) calls in
  Mount.first_match (Mount.mounts st) req = Some m →
  (∀ m', m' ∈ registered → match_ (Mount.spec m') req = true →
         Mount.slashes m' ≤ Mount.slashes m)
  ∧ List.find (λ x, match_ (Mount.spec x) req)
      (filter (λ x, Mount.slashes x = Mount.slashes m) registered) = Some m.
Proof.
  intros st registered Hm.
  pose proof (run_calls_sorted require app calls info0) as Hsorted.
  pose proof (run_calls_stable info0 calls (Mount.slashes m)) as Hstable.
  pose proof (run_calls_perm info0 calls) as Hperm.
  fold st in Hsorted, Hstable, Hperm. fold registered in Hstable, Hperm.
  apply find_split in Hm as (l1 & l2 & Hms & Hmatch & Hl1).
  rewrite Hms in *. split.
  - intros m' Hin Hm'. rewrite <- Hperm in Hin.
    apply elem_of_app in Hin as [Hin | Hin].
    + rewrite Forall_forall in Hl1. rewrite (Hl1 m' Hin) in Hm'. discriminate.
    + apply elem_of_cons in Hin as [-> | Hin]; [done|].
      apply StronglySorted_app in Hsorted as (_ & _ & Hs).
      apply StronglySorted_cons in Hs as [Hs _].
      rewrite Forall_forall in Hs. exact (Hs m' Hin).
  - rewrite <- Hstable, filter_app, filter_cons.
    rewrite decide_True by done.
    rewrite find_app_none; [simpl; by rewrite Hmatch|].
    rewrite Forall_forall in Hl1 |- *.
    intros y [_ Hy]%list_elem_of_filter. by apply Hl1.
Qed.

End Selection.

(** X5. Once a mount with neither path nor host is in the registry (as
    [mount("/", ...)], [mount("", ...)] or [mount({}, ...)] register one), the
    dispatcher never hands a request to the wrapped chain [next]. *)
Theorem catch_all_shadows_next
    (ms : list Mount.MountPoint) (m : Mount.MountPoint) (req : Request) :
  m ∈ ms →
  JS.truthy (spec_path (Mount.spec m)) = false →
  JS.truthy (spec_host (Mount.spec m)) = false →
  ∀ req', Mount.mount_loop ms req ≠ Mount.TailCall Mount.CNext req'.
Proof.
  intros Hin Hpath Hhost req'.
  assert (Hmatch : match_ (Mount.spec m) req = true).
  { unfold match_, host_test, path_test. by rewrite Hpath, Hhost. }
  rewrite mount_loop_first_match.
  destruct (Mount.first_match ms req) as [m'|] eqn:Hf.
  - unfold Mount.dispatch_to.
    destruct (Mount.wants_redirect m' req); [done|].
    destruct (JS.truthy (Mount.path m')); [|done].
    simpl. by destruct (pathInfo req).
  - exfalso. unfold Mount.first_match in Hf.
    apply list_elem_of_In in Hin.
    pose proof (List.find_none _ _ Hf m Hin) as Hno. simpl in Hno.
    congruence.
Qed.

(** ** Path accounting across a dispatch *)

(** X6. When an entry of the registry hands a request to its
    application, [scriptName] has the entry's path appended and [pathInfo]
    has lost as many characters as the path has; so [scriptName] followed by
    [pathInfo] is the same string before and after exactly as far as the
    path is a prefix of [pathInfo]. That is the case for every non-empty
    [pathInfo] the entry matches, as long as the spec object its [match]
    closure reads still carries the path the entry copied; it is not when
    the caller has passed the same object, with a path ending in two
    slashes, to [app.mount] again (see [reused_spec_breaks_full_path]). *)
Theorem dispatch_keeps_full_path
    (m : Mount.MountPoint) (req req' : Request) (pi : string)
    (f : Mount.Callee) :
  pathInfo req = Some pi →
  Mount.dispatch_to m req = Mount.TailCall f req' →
  let p := JS.or_else (Mount.path m) "" in
  f = Mount.CApp (Mount.app m)
  ∧ req' = {| scriptName := scriptName req +:+ p;
              pathInfo := Some (JS.slice pi (String.length p));
              headers := headers req;
              method := method req;
              queryString := queryString req;
              env := env req |}
  ∧ ((∃ rest, pi = p +:+ rest) →
     scriptName req' +:+ JS.slice pi (String.length p) = scriptName req +:+ pi)
  ∧ (∀ o : Spec,
       Mount.spec m = normalize o →
       Mount.path m = spec_path (normalize o) →
       match_ (Mount.spec m) req = true → pi ≠ "" →
       scriptName req' +:+ JS.slice pi (String.length p) = scriptName req +:+ pi).
Proof.
  intros Hpi Hd p.
  assert (Hreq : f = Mount.CApp (Mount.app m)
                 ∧ req' = {| scriptName := scriptName req +:+ p;
                             pathInfo := Some (JS.slice pi (String.length p));
                             headers := headers req;
                             method := method req;
                             queryString := queryString req;
                             env := env req |}).
  { unfold Mount.dispatch_to in Hd.
    destruct (Mount.wants_redirect m req); [done|]. unfold p.
    destruct (Mount.path m) as [[|c q]|].
    - cbn [JS.truthy JS.truthy_str] in Hd. injection Hd as <- <-.
      split; [done|]. cbn [JS.or_else JS.truthy_str String.length JS.slice].
      rewrite append_empty_r, <- Hpi. by destruct req.
    - cbn [JS.truthy JS.truthy_str JS.to_String pathInfo set_path] in Hd.
      rewrite Hpi in Hd. by injection Hd as <- <-.
    - cbn [JS.truthy] in Hd. injection Hd as <- <-.
      split; [done|]. cbn [JS.or_else String.length JS.slice].
      rewrite append_empty_r, <- Hpi. by destruct req. }
  destruct Hreq as [Hf Hreq].
  assert (Hprefix : (∃ rest, pi = p +:+ rest) →
            scriptName req' +:+ JS.slice pi (String.length p)
            = scriptName req +:+ pi).
  { intros [rest ->]. rewrite Hreq. cbn [scriptName].
    by rewrite slice_append, append_assoc. }
  split; [exact Hf|]. split; [exact Hreq|]. split; [exact Hprefix|].
  intros o Hspec Hpath Hmatch Hne. apply Hprefix.
  apply andb_true_iff in Hmatch as [_ Hmatch]. rewrite Hspec in Hmatch.
  unfold p. rewrite Hpath.
  destruct (spec_path (normalize o)) as [q|] eqn:Hq; [|by exists pi].
  destruct q as [|c q]; [by exists pi|].
  cbn [JS.or_else JS.truthy_str].
  apply (path_test_prefix_iff o req _ pi Hq) in Hmatch
    as [-> | [rest ->]]; [| |done..].
  - exists "". by rewrite append_empty_r.
  - by eexists.
Qed.

(** X7. The location a bare-prefix request is redirected to is not
    redirected again: a request whose [pathInfo] is the canonical path of a
    registered mount with a non-empty path passes that mount's path test and
    is handed to the application with [pathInfo] ["/"], whatever the method
    and the redirect setting. *)
Theorem redirect_target_is_dispatched
    (o : Spec) (noRedirect : bool) (a : positive) (req : Request)
    (p : string) :
  let m := Mount.new_mount (normalize o) noRedirect a in
  let req2 := set_path req (scriptName req)
                (Some (JS.to_String (Mount.canonicalPath m))) in
  Mount.path m = Some p → p ≠ "" →
  path_test (Mount.spec m) req2 = true
  ∧ Mount.dispatch_to m req2
    = Mount.TailCall (Mount.CApp a)
        (set_path req (scriptName req +:+ p) (Some "/")).
Proof.
  intros m req2 Hp Hne. cbn [Mount.path m Mount.new_mount] in Hp.
  pose proof (normalize_canonical o p Hp Hne) as Hc.
  assert (Hreq2 : req2 = set_path req (scriptName req) (Some (p +:+ "/"))).
  { unfold req2. cbn [Mount.canonicalPath m Mount.new_mount]. by rewrite Hc. }
  rewrite Hreq2. split.
  - cbn [Mount.spec m Mount.new_mount].
    apply (path_test_prefix_iff o _ p (p +:+ "/")); [done..| |].
    + by destruct p.
    + right. by exists "".
  - unfold Mount.dispatch_to, Mount.wants_redirect.
    cbn [Mount.path Mount.app Mount.redirect m Mount.new_mount pathInfo
           set_path].
    rewrite Hp. cbn [JS.strict_eq].
    assert ((p +:+ "/" =? p)%string = false) as ->.
    { apply String.eqb_neq. intros H.
      rewrite <- (append_empty_r p) in H at 2.
      by apply (inj (String.app p)) in H. }
    rewrite andb_false_r. cbn [andb].
    apply truthy_str_true in Hne. cbn [JS.truthy JS.to_String]. rewrite Hne.
    cbn [pathInfo scriptName set_path]. unfold set_path. simpl.
    by rewrite slice_append.
Qed.

(** ** Reverse links and lookup across mounts *)

Lemma omap_length_le {A B : Type} (f : A → option B) (l : list A) :
  length (omap f l) ≤ length l.
Proof.
  induction l as [|x l IH]; [done|]. csimpl.
  destruct (f x); simpl; lia.
Qed.

Section MoreReverseLinks.
Variable require : string → option positive.

(** What one call of [app.mount] with a handler target does to
    [mountInfo]. *)
Lemma app_mount_handler_info (A B : positive) (arg : SpecArg) (spec0 : Spec)
    (nr : bool) (st : Mount.State) :
  spec_of_arg arg = inr spec0 →
  Mount.mountInfo (snd (Mount.app_mount require A arg (THandler B) nr st)) =
  <[B := default [] (Mount.mountInfo st !! B) ++
         [{| Mount.parent := Some A;
             Mount.link_path := spec_path (normalize spec0);
             Mount.link_host := spec_host (normalize spec0) |}]]>
    (Mount.mountInfo st).
Proof. intros H. unfold Mount.app_mount. by rewrite H. Qed.

(** An application that is nobody's parent may be added to or removed from
    the visited applications without changing the walk. *)
Lemma first_unseen_irrelevant (b : positive) (ms : list Mount.Link)
    (seen1 seen2 : list positive) :
  Forall (λ l, Mount.parent l ≠ Some b) ms →
  (∀ q, q ≠ b → q ∈ seen1 ↔ q ∈ seen2) →
  Mount.first_unseen ms seen1 = Mount.first_unseen ms seen2.
Proof.
  intros Hms Hseen. induction Hms as [|l ms Hl _ IH]; [done|]. simpl.
  destruct (Mount.parent l) as [q|]; [|exact IH].
  assert (q ≠ b) as Hq by congruence.
  rewrite IH. destruct (decide (q ∈ seen1)) as [Hin|Hin].
  - rewrite !bool_decide_eq_true_2; [done| |done]. by apply Hseen.
  - rewrite !bool_decide_eq_false_2; [done| |done].
    intros H. by apply Hin, Hseen.
Qed.

Lemma lookup_walk_irrelevant (b : positive) (fuel : nat)
    (info : gmap positive (list Mount.Link)) (ms : option (list Mount.Link))
    (seen1 seen2 : list positive) (path : string) :
  Links.never_parent b info →
  (∀ l, ms = Some l → Forall (λ x, Mount.parent x ≠ Some b) l) →
  (∀ q, q ≠ b → q ∈ seen1 ↔ q ∈ seen2) →
  Mount.lookup_walk fuel info ms seen1 path =
  Mount.lookup_walk fuel info ms seen2 path.
Proof.
  intros Hinfo. revert ms seen1 seen2 path.
  induction fuel as [|fuel IH]; intros ms seen1 seen2 path Hms Hseen.
  - destruct ms as [ms|]; [|done]. simpl.
    by rewrite (first_unseen_irrelevant b ms seen1 seen2 (Hms _ eq_refl) Hseen).
  - destruct ms as [ms|]; [|done]. simpl.
    rewrite (first_unseen_irrelevant b ms seen1 seen2 (Hms _ eq_refl) Hseen).
    destruct (Mount.first_unseen ms seen2) as [[p l]|]; [|done].
    apply IH.
    + intros ls Hls. by apply (Hinfo p).
    + intros q Hq. rewrite !elem_of_app. by rewrite (Hseen q Hq).
Qed.

(** X8. Mounting composes with lookup: when [B] carries no link and has
    mounted nothing itself, after [A.mount(spec, B)] the lookup of [B] is the
    lookup of [A] followed by the path of the mount (nothing for a
    host-only mount). *)
Theorem lookup_extends_parent_path
    (A B : positive) (arg : SpecArg) (spec0 : Spec) (nr : bool)
    (reg : list Mount.MountPoint) (info : gmap positive (list Mount.Link)) :
  spec_of_arg arg = inr spec0 →
  info !! B = None → A ≠ B → Links.never_parent B info →
  ∃ s,
    Mount.lookup require info (THandler A) = Some (inr s)
    ∧ Mount.lookup require
        (Mount.mountInfo
           (snd (Mount.app_mount require A arg (THandler B) nr
                   {| Mount.mounts := reg; Mount.mountInfo := info |})))
        (THandler B)
      = Some (inr (s +:+ JS.or_else (spec_path (normalize spec0)) "")).
Proof.
  intros Harg HB HAB Hnever.
  rewrite (app_mount_handler_info A B arg spec0 nr _ Harg). simpl. rewrite HB.
  set (L := {| Mount.parent := Some A;
               Mount.link_path := spec_path (normalize spec0);
               Mount.link_host := spec_host (normalize spec0) |}).
  set (pth := JS.or_else (spec_path (normalize spec0)) "").
  destruct (lookup_handler_total require info A) as [s Hs].
  exists s. split; [exact Hs|].
  unfold Mount.lookup, Mount.lookup_fuel in *. simpl in *.
  rewrite lookup_insert_eq, map_size_insert_None by done. simpl.
  rewrite bool_decide_eq_false_2
    by (intros ->%list_elem_of_singleton; congruence).
  rewrite lookup_insert_ne by done. fold pth.
  destruct (info !! A) as [ms|] eqn:HA.
  - rewrite (lookup_walk_ext _ (<[B:=[L]]> info) info).
    2:{ intros k Hk. apply lookup_insert_ne. intros <-. apply Hk.
        apply elem_of_cons. by left. }
    rewrite (lookup_walk_irrelevant B _ _ _ [B; A] [A]); [|done| |].
    2:{ intros l [= <-]. by apply (Hnever A). }
    2:{ intros q Hq. rewrite (elem_of_cons [A] q B).
        split; [by intros [?|?] | by right]. }
    rewrite lookup_walk_acc.
    destruct (Mount.lookup_walk (size info) info (Some ms) [A] "")
      as [s'|]; [|done].
    injection Hs as <-. simpl. by rewrite append_empty_r.
  - injection Hs as <-. rewrite lookup_walk_None.
    by rewrite append_empty_r.
Qed.

(** X9. An application mounted under itself, carrying no other link,
    resolves to the empty path: the only link names a visited parent. *)
Theorem lookup_self_mount
    (B : positive) (arg : SpecArg) (spec0 : Spec) (nr : bool)
    (reg : list Mount.MountPoint) (info : gmap positive (list Mount.Link)) :
  spec_of_arg arg = inr spec0 → info !! B = None →
  Mount.lookup require
    (Mount.mountInfo
       (snd (Mount.app_mount require B arg (THandler B) nr
               {| Mount.mounts := reg; Mount.mountInfo := info |})))
    (THandler B)
  = Some (inr "").
Proof.
  intros Harg HB.
  rewrite (app_mount_handler_info B B arg spec0 nr _ Harg). simpl. rewrite HB.
  unfold Mount.lookup, Mount.lookup_fuel. simpl.
  rewrite lookup_insert_eq, map_size_insert_None by done. simpl.
  by rewrite bool_decide_eq_true_2 by (by apply list_elem_of_singleton).
Qed.

Variable app : positive.

Lemma run_calls_one_info (c : Mount.Call) (st : Mount.State) :
  Mount.mountInfo (Mount.run_calls require app [c] st) =
  match Mount.registered require c with
  | Some m =>
      <[Mount.app m :=
          default [] (Mount.mountInfo st !! Mount.app m) ++
          [{| Mount.parent := Some app;
              Mount.link_path := Mount.path m;
              Mount.link_host := spec_host (Mount.spec m) |}]]>
        (Mount.mountInfo st)
  | None => Mount.mountInfo st
  end.
Proof.
  unfold Mount.run_calls, Mount.registered, Mount.app_mount. simpl.
  destruct (spec_of_arg (Mount.call_spec c)); [done|].
  by destruct (Mount.resolveApp require (Mount.call_target c)).
Qed.

(** X10. A handler gathers one link for each call of [app.mount] that
    mounts it, in the order of the calls and after the links it had; the
    [mountInfo] of an application that no call mounts is left as it was
    (undefined stays undefined). *)
Theorem links_accumulate
    (st0 : Mount.State) (calls : list Mount.Call) (k : positive) :
  let st := Mount.run_calls require app calls st0 in
  default [] (Mount.mountInfo st !! k) =
    default [] (Mount.mountInfo st0 !! k)
    ++ omap (Links.link_for require app k) calls
  ∧ (omap (Links.link_for require app k) calls = [] →
     Mount.mountInfo st !! k = Mount.mountInfo st0 !! k).
Proof.
  induction calls as [|c calls IH] using rev_ind.
  - simpl. by rewrite app_nil_r.
  - cbv zeta in *. destruct IH as [IH1 IH2].
    rewrite run_calls_snoc, run_calls_one_info, omap_app. simpl.
    unfold Links.link_for at 2 4.
    destruct (Mount.registered require c) as [m|]; simpl.
    + destruct (decide (Mount.app m = k)) as [<-|Hk].
      * rewrite lookup_insert_eq. simpl. split.
        -- by rewrite IH1, app_assoc.
        -- intros H. by apply app_eq_nil in H as [_ ?].
      * rewrite lookup_insert_ne by done. rewrite !app_nil_r. by split.
    + rewrite !app_nil_r. by split.
Qed.

(** X11. The registry holds exactly the mounts of the calls that did not
    throw, each once: sorting drops and repeats nothing, and a call that
    throws adds nothing. *)
Theorem registry_holds_registered_mounts
    (info0 : gmap positive (list Mount.Link)) (calls : list Mount.Call) :
  let st := Mount.run_calls require app calls
              {| Mount.mounts := []; Mount.mountInfo := info0 |} in
  Mount.mounts st ≡ₚ omap (Mount.registered require) calls
  ∧ length (Mount.mounts st) ≤ length calls
  ∧ (∀ m, m ∈ Mount.mounts st ↔
          ∃ c, c ∈ calls ∧ Mount.registered require c = Some m).
Proof.
  intros st. pose proof (run_calls_perm require app info0 calls) as Hperm.
  fold st in Hperm. split; [exact Hperm|]. split.
  - rewrite Hperm. apply omap_length_le.
  - intros m. rewrite Hperm. apply list_elem_of_omap.
Qed.

End MoreReverseLinks.

(** ** The two dispatchers side by side *)

(** X12. On the same mounts the dispatcher of
    lib/stick/middleware/mount.js decides as the one of
    lib/middleware/mount.js does with every mount redirecting: the same
    redirect (the header being named ["Location"] instead of ["location"]),
    the same call on the same rewritten request, the same error. A handler
    registered through the older [app.mount] is the newer file's entry with
    [noRedirect] unset, appended without sorting. *)
Theorem older_dispatch_agrees
    (require : string → option positive) (req : Request) :
  (∀ ms : list StickMount.MountPoint,
      Mount.mount_loop (Older.to_main <$> ms) req =
      Older.as_main (StickMount.mount_loop ms req))
  ∧ (∀ (arg : SpecArg) (spec0 : Spec) (a : positive) (st : StickMount.State),
      spec_of_arg arg = inr spec0 →
      Older.to_main <$>
        StickMount.mounts (snd (StickMount.app_mount require arg (THandler a) st))
      = (Older.to_main <$> StickMount.mounts st)
        ++ [Mount.new_mount (normalize spec0) false a]).
Proof.
  split.
  - induction ms as [|m ms IH]; [reflexivity|].
    rewrite fmap_cons.
    cbn [Mount.mount_loop StickMount.mount_loop Older.to_main Mount.spec].
    destruct (match_ (StickMount.spec m) req); [|exact IH].
    unfold Mount.dispatch_to, StickMount.dispatch_to, Mount.wants_redirect,
      Mount.redirect_location, Older.to_main.
    cbn [Mount.redirect Mount.path Mount.canonicalPath Mount.app andb].
    destruct (JS.strict_eq (pathInfo req) (StickMount.path m)
              && String.eqb (method req) "GET").
    + by destruct (JS.truthy_str (queryString req)).
    + destruct (JS.truthy (StickMount.path m)); [|done].
      simpl. by destruct (pathInfo req).
  - intros arg spec0 a st Harg. unfold StickMount.app_mount.
    rewrite Harg. simpl. by rewrite fmap_app.
Qed.

(** X13. When the module id given to the older [app.mount] does not
    resolve, the call throws and registers no mount, yet the id has already
    been recorded: the resolver of later requests maps it to the path it
    was to be mounted on. *)
Theorem failed_module_stays_resolvable
    (require : string → option positive) (arg : SpecArg) (spec0 : Spec)
    (id : string) (st : StickMount.State) :
  spec_of_arg arg = inr spec0 → require id = None →
  let result := StickMount.app_mount require arg (TModule id) st in
  fst result = Some Error_resolving_target
  ∧ StickMount.mounts (snd result) = StickMount.mounts st
  ∧ (∀ (c : string) (req : Request),
       spec_canonicalPath (normalize spec0) = Some c → c ≠ "" →
       StickMount.lookupModule_fn (StickMount.reverse (snd result))
         (scriptName req) (lookupModule (env req)) id
       = JS.encodeURI (scriptName req +:+ c)).
Proof.
  intros Harg Hid. unfold StickMount.app_mount. rewrite Harg, Hid.
  cbn [fst snd StickMount.mounts StickMount.reverse].
  repeat split. intros c req Hc Hne.
  unfold StickMount.lookupModule_fn. rewrite lookup_insert_eq, Hc.
  apply truthy_str_true in Hne. cbn [JS.truthy JS.to_String]. by rewrite Hne.
Qed.

(** ** The upload middleware *)

Lemma last_cons_default {A : Type} (x : A) (l : list A) (d d' : A) :
  List.last (x :: l) d = List.last (x :: l) d'.
Proof.
  revert x. induction l as [|y l IH]; intros x; [done|].
  change (List.last (y :: l) d = List.last (y :: l) d'). apply IH.
Qed.

Section UploadFacts.
Context {Params Factory : Type}.
Variable isFileUpload : option string → bool.
Variable parseFileUpload :
  Request → Upload.ServletRequest → option string → Factory →
  Params * option Error.
Variable req : Request.
Variable servlet : Upload.ServletRequest.
Variable desc : option (@Upload.Descriptor Params).

Local Abbreviation get := (Upload.get isFileUpload parseFileUpload req servlet desc).
Local Abbreviation run := (Upload.run isFileUpload parseFileUpload req servlet desc).
Local Abbreviation step := (Upload.step isFileUpload parseFileUpload req servlet desc).

(** Once the closure variable holds an object, reads and changes of the
    factory leave it and the record of parses alone. *)
Lemma run_cached (ops : list Upload.Op) (st : Upload.State) (v : Params) :
  Upload.postParams st = Some v →
  Upload.postParams (run ops st) = Some v
  ∧ Upload.parses (run ops st) = Upload.parses st.
Proof.
  revert st. induction ops as [|op ops IH]; intros st Hv; [done|].
  unfold Upload.run. simpl. fold (run ops (step st op)).
  assert (Upload.postParams (step st op) = Some v
          ∧ Upload.parses (step st op) = Upload.parses st) as [H1 H2].
  { destruct op as [|f]; simpl; [|done]. unfold Upload.get. by rewrite Hv. }
  destruct (IH _ H1) as [H3 H4]. split; [done | congruence].
Qed.

Lemma get_parses (st : Upload.State) :
  Upload.parses (snd (get st)) = Upload.parses st
  ∨ (Upload.postParams st = None
     ∧ Upload.parses (snd (get st)) = Upload.parses st ++ [Upload.streamFactory st]
     ∧ is_Some (Upload.postParams (snd (get st)))).
Proof.
  unfold Upload.get. destruct (Upload.postParams st) eqn:Hc; [by left|].
  destruct (Upload.is_upload isFileUpload req servlet).
  - right. destruct (parseFileUpload _ _ _ _) as [filled [e|]]; simpl; eauto.
  - left. by destruct desc.
Qed.

(** X14. The request body is parsed at most once: whatever reads of
    [req.postParams] and calls of [app.upload] follow [upload(req)],
    [parseFileUpload] is called once at most; and once a read has left an
    object in the closure variable, every later read returns that object. *)
Theorem upload_parses_at_most_once
    (factory : Factory) (ops : list Upload.Op) :
  let st := run ops (Upload.installed factory) in
  length (Upload.parses st) ≤ 1
  ∧ (∀ v, Upload.postParams st = Some v →
       ∀ ops', fst (get (run ops' st)) = inr (Some v)
               ∧ Upload.parses (run ops' st) = Upload.parses st).
Proof.
  split.
  - assert (Hinv : ∀ st0 : Upload.State,
               Upload.parses st0 = [] →
               length (Upload.parses (run ops st0)) ≤ 1).
    { induction ops as [|op ops' IH]; intros st0 H0;
        [simpl; rewrite H0; simpl; lia|].
      unfold Upload.run. simpl. fold (run ops' (step st0 op)).
      destruct op as [|f]; [|by apply IH].
      simpl. destruct (get_parses st0) as [H | (_ & H & [v Hv])].
      - apply IH. congruence.
      - destruct (run_cached ops' _ v Hv) as [_ ->]. rewrite H, H0. simpl. lia. }
    by apply Hinv.
  - intros v Hv ops'. destruct (run_cached ops' _ v Hv) as [H1 H2].
    split; [|exact H2]. unfold Upload.get. by rewrite H1.
Qed.

(** X15. For a request that is not a file upload (a method other than POST
    and PUT, or a content type [isFileUpload] rejects) nothing is ever
    parsed, and every read gives what the property found on the request
    gives: its value, what its getter returns, or undefined when there was
    none. *)
Theorem upload_leaves_other_requests_alone
    (st0 : Upload.State) (ops : list Upload.Op) :
  Upload.is_upload isFileUpload req servlet = false →
  Upload.postParams st0 = None →
  let st := run ops st0 in
  Upload.parses st = Upload.parses st0
  ∧ fst (get st) = inr (from_option Upload.descriptor_value None desc).
Proof.
  intros Hup H0.
  assert (Hinv : ∀ st1 : Upload.State,
             (Upload.postParams st1 = None
              ∨ Upload.postParams st1
                = from_option Upload.descriptor_value None desc) →
             (Upload.postParams (run ops st1) = None
              ∨ Upload.postParams (run ops st1)
                = from_option Upload.descriptor_value None desc)
             ∧ Upload.parses (run ops st1) = Upload.parses st1).
  { induction ops as [|op ops' IH]; intros st1 H1; [done|].
    unfold Upload.run. simpl. fold (run ops' (step st1 op)).
    assert ((Upload.postParams (step st1 op) = None
             ∨ Upload.postParams (step st1 op)
               = from_option Upload.descriptor_value None desc)
            ∧ Upload.parses (step st1 op) = Upload.parses st1) as [H2 H3].
    { destruct op as [|f]; [|done]. simpl. unfold Upload.get.
      destruct (Upload.postParams st1) eqn:Hc.
      - simpl. by rewrite Hc.
      - rewrite Hup.
        destruct desc; simpl; [by split; [right|] | by split; [left|]]. }
    destruct (IH _ H2) as [H4 H5]. split; [done | congruence]. }
  destruct (Hinv st0 (or_introl H0)) as [Hc Hp]. split; [exact Hp|].
  unfold Upload.get. destruct Hc as [-> | Hc].
  - rewrite Hup. by destruct desc.
  - rewrite Hc. destruct (from_option Upload.descriptor_value None desc) eqn:E;
      [done|]. rewrite Hup. destruct desc; simpl in *; by rewrite ?E.
Qed.

(** X16. A parse that throws is not tried again: the read that parses
    throws the error, and the next read returns, without parsing, the object
    as far as the failed parse had filled it. *)
Theorem upload_failed_parse_not_retried
    (st : Upload.State) (filled : Params) (e : Error) :
  Upload.is_upload isFileUpload req servlet = true →
  Upload.postParams st = None →
  parseFileUpload req servlet (Upload.getCharacterEncoding servlet)
    (Upload.streamFactory st) = (filled, Some e) →
  fst (get st) = inl e
  ∧ fst (get (snd (get st))) = inr (Some filled)
  ∧ Upload.parses (snd (get (snd (get st))))
    = Upload.parses st ++ [Upload.streamFactory st].
Proof.
  intros Hup Hc Hparse. unfold Upload.get.
  rewrite Hc, Hup, Hparse. by simpl.
Qed.

(** X17. The stream factory that a parse uses is the one in force at the
    first read: after [upload(req)], calls of [app.upload] made before the
    first read of an upload request decide the factory (the last one wins),
    and calls made after it change nothing for this request. *)
Theorem upload_factory_of_first_read
    (factory0 : Factory) (before : list Factory) (after : list Upload.Op) :
  Upload.is_upload isFileUpload req servlet = true →
  Upload.parses
    (run ((Upload.SetFactory <$> before) ++ Upload.Read :: after)
       (Upload.installed factory0))
  = [List.last before factory0].
Proof.
  intros Hup. unfold Upload.run. rewrite foldl_app. simpl.
  fold (run (Upload.SetFactory <$> before) (Upload.installed factory0)).
  assert (Hset : ∀ (fs : list Factory) (st : Upload.State),
             Upload.postParams (run (Upload.SetFactory <$> fs) st)
               = Upload.postParams st
             ∧ Upload.parses (run (Upload.SetFactory <$> fs) st)
               = Upload.parses st
             ∧ Upload.streamFactory (run (Upload.SetFactory <$> fs) st)
               = List.last fs (Upload.streamFactory st)).
  { induction fs as [|f fs IH]; intros st; [done|].
    unfold Upload.run. rewrite fmap_cons. simpl.
    fold (run (Upload.SetFactory <$> fs) (Upload.app_upload f st)).
    destruct (IH (Upload.app_upload f st)) as (H1 & H2 & H3).
    repeat split; [done | done |]. rewrite H3. simpl.
    destruct fs as [|g fs]; [done|]. apply last_cons_default. }
  destruct (Hset before (Upload.installed factory0)) as (H1 & H2 & H3).
  set (st1 := run (Upload.SetFactory <$> before) (Upload.installed factory0))
    in *.
  fold (run after (snd (get st1))).
  assert (Hget : Upload.parses (snd (get st1)) = [List.last before factory0]
                 ∧ is_Some (Upload.postParams (snd (get st1)))).
  { unfold Upload.get. rewrite H1. simpl. rewrite Hup.
    destruct (parseFileUpload _ _ _ _) as [filled [e|]]; simpl;
      rewrite H2, H3; simpl; eauto. }
  destruct Hget as [Hp [v Hv]].
  destruct (run_cached after _ v Hv) as [_ ->]. exact Hp.
Qed.

End UploadFacts.

(** ** Resolvers of nested mounts *)

(** X18. Resolvers chain through nested mounts: when the older dispatcher
    hands a request on, the request carries the resolver it installed, and
    the resolver that a dispatcher further in installs on that request gives,
    for a module id it has no entry for, what the outer resolver gives, and
    for an id of its own the path under the [scriptName] it received. *)
Theorem nested_resolvers_chain
    (outer inner : StickMount.State) (req req1 : Request)
    (callee : StickMount.Callee) :
  StickMount.mount_outcome outer req = StickMount.TailCall callee req1 →
  let f_outer :=
    StickMount.lookupModule_fn (StickMount.reverse outer) (scriptName req)
      (lookupModule (env req)) in
  let f_inner :=
    StickMount.lookupModule_fn (StickMount.reverse inner) (scriptName req1)
      (lookupModule (env req1)) in
  lookupModule (env req1) = Some f_outer
  ∧ lookupModule (env (StickMount.install (StickMount.reverse inner) req1))
    = Some f_inner
  ∧ (∀ id, StickMount.reverse inner !! id = None → f_inner id = f_outer id)
  ∧ (∀ id sp c,
       StickMount.reverse inner !! id = Some sp →
       spec_canonicalPath sp = Some c → c ≠ "" →
       f_inner id = JS.encodeURI (scriptName req1 +:+ c)).
Proof.
  intros Hout f_outer f_inner.
  assert (Henv : lookupModule (env req1) = Some f_outer).
  { unfold StickMount.mount_outcome in Hout.
    apply stick_loop_env in Hout. by rewrite Hout. }
  split; [exact Henv|]. split; [reflexivity|]. split.
  - intros id Hid. unfold f_inner, StickMount.lookupModule_fn at 1.
    by rewrite Hid, Henv.
  - intros id sp c Hid Hc Hne. unfold f_inner, StickMount.lookupModule_fn.
    rewrite Hid, Hc. apply truthy_str_true in Hne.
    cbn [JS.truthy JS.to_String]. by rewrite Hne.
Qed.

(** ** Registration order in the older file *)

Lemma stick_loop_app_match (ms l : list StickMount.MountPoint) (req : Request)
    (m : StickMount.MountPoint) :
  m ∈ ms → match_ (StickMount.spec m) req = true →
  StickMount.mount_loop (ms ++ l) req = StickMount.mount_loop ms req
  ∧ is_Some (StickMount.first_match ms req).
Proof.
  intros Hin Hm. induction ms as [|m0 ms IH]; [by apply elem_of_nil in Hin|].
  unfold StickMount.first_match in *. simpl.
  destruct (match_ (StickMount.spec m0) req) eqn:H0; [by eauto|].
  apply elem_of_cons in Hin as [-> | Hin]; [congruence|]. by apply IH.
Qed.

(** X19. The older file tries the mounts in the order they were
    registered: a mount without host constraint registered on a path [p]
    takes every request that a mount registered after it on a longer path
    [p + "/" + q] would match, so the later mount is never reached. *)
Theorem older_earlier_prefix_shadows
    (ms : list StickMount.MountPoint) (m m' : StickMount.MountPoint)
    (o o' : Spec) (p q : string) (req : Request) :
  m ∈ ms →
  StickMount.spec m = normalize o →
  spec_host (normalize o) = None →
  spec_path (normalize o) = Some p → p ≠ "" →
  StickMount.spec m' = normalize o' →
  spec_path (normalize o') = Some (p +:+ "/" +:+ q) →
  match_ (StickMount.spec m') req = true →
  match_ (StickMount.spec m) req = true
  ∧ StickMount.mount_loop (ms ++ [m']) req = StickMount.mount_loop ms req
  ∧ is_Some (StickMount.first_match ms req).
Proof.
  intros Hin Hm Hhost Hp Hne Hm' Hp' Hmatch.
  assert (Hlong : p +:+ "/" +:+ q ≠ "") by (by destruct p).
  assert (Hmatch_m : match_ (StickMount.spec m) req = true).
  { rewrite Hm' in Hmatch. apply andb_true_iff in Hmatch as [_ Hpath].
    rewrite Hm. unfold match_, host_test. rewrite Hhost.
    cbn [JS.truthy negb orb andb].
    destruct (JS.truthy (pathInfo req)) eqn:Hpi.
    - destruct (pathInfo req) as [pi|] eqn:Hpi'; [|done].
      apply truthy_str_true in Hpi.
      apply (path_test_prefix_iff o' req _ pi Hp' Hlong Hpi' Hpi) in Hpath.
      apply (path_test_prefix_iff o req p pi Hp Hne Hpi' Hpi). right.
      destruct Hpath as [-> | [rest ->]]; [by exists q|].
      exists (q +:+ "/" +:+ rest). by rewrite !append_assoc.
    - rewrite (path_test_long_prefix (normalize o') req (p +:+ "/" +:+ q))
        in Hpath; [done | done | done | |].
      + apply normalize_canonical; done.
      + destruct p as [|a p]; [done|].
        change (String a p +:+ "/" +:+ q) with (String a (p +:+ "/" +:+ q)).
        destruct p; simpl; lia. }
  split; [exact Hmatch_m|]. exact (stick_loop_app_match ms [m'] req m Hin Hmatch_m).
Qed.

(** * Worked examples of the further properties *)

(** X1: ["/wiki"] accepts ["/wiki/Page"] and rejects ["/wikipedia"]. *)
Lemma path_test_segment_boundary_wiki :
  path_test (normalize (Sample.path_spec "/wiki"))
    (Sample.request "GET" (Some "/wiki/Page") "" None) = true
  ∧ path_test (normalize (Sample.path_spec "/wiki"))
      (Sample.request "GET" (Some "/wikipedia") "" None) = false.
Proof.
  split.
  - refine (proj2 (proj1 (path_test_segment_boundary
              (Sample.path_spec "/wiki")
              (Sample.request "GET" (Some "/wiki/Page") "" None)
              "/wiki" "/wiki/Page" _ _ _ _)) _);
      [reflexivity | discriminate | reflexivity | discriminate |].
    right. by exists "Page".
  - refine (proj2 (path_test_segment_boundary
              (Sample.path_spec "/wiki")
              (Sample.request "GET" (Some "/wikipedia") "" None)
              "/wiki" "/wikipedia" _ _ _ _) "p"%char "edia" _ _);
      [reflexivity | discriminate | reflexivity | discriminate
      | discriminate | reflexivity].
Defined.

(** X2: ["/wiki/"] and ["/wiki"] register the same mount. *)
Lemma mount_trailing_slash_insignificant_wiki :
  Mount.app_mount Sample.no_module 1 (SpecString "/wiki/") (THandler 2) false
    Sample.fresh
  = Mount.app_mount Sample.no_module 1 (SpecString "/wiki") (THandler 2) false
      Sample.fresh.
Proof.
  refine (proj1 (mount_trailing_slash_insignificant Sample.no_module 1 "/wiki"
                   (THandler 2) false _ _) Sample.fresh);
    [discriminate | reflexivity].
Defined.

(** X3: the spec [{path: "/a//"}] loses one slash at each call. *)
Lemma spec_object_reuse_double_slash :
  spec_path (normalize (Sample.path_spec "/a//")) = Some "/a/"
  ∧ spec_path (normalize (normalize (Sample.path_spec "/a//"))) = Some "/a".
Proof.
  exact (proj2 (spec_object_reuse (Sample.path_spec "/a//")) "/a" eq_refl).
Defined.

(** X4 on the five mounts: ["/a/b/x"] goes to the mount on ["/a/b"], which
    was registered last. *)
Lemma dispatch_picks_most_specific_five :
  List.find
    (λ x, match_ (Mount.spec x) (Sample.request "GET" (Some "/a/b/x") "" None))
    (filter (λ x, Mount.slashes x = 2)
       (omap (Mount.registered Sample.no_module) Sample.five_calls))
  = Some (Mount.new_mount (normalize (Sample.path_spec "/a/b/")) false 6).
Proof.
  refine (proj2 (dispatch_picks_most_specific Sample.no_module 1 ∅
                   Sample.five_calls
                   (Sample.request "GET" (Some "/a/b/x") "" None)
                   (Mount.new_mount (normalize (Sample.path_spec "/a/b/"))
                      false 6) _)).
  vm_compute. reflexivity.
Defined.

(** X5: after [mount("/", app2)] a request for ["/other"] does not reach
    [next]. *)
Lemma catch_all_shadows_next_root :
  Mount.mount_loop
    (Mount.mounts (Mount.run_calls Sample.no_module 1
                     [Sample.call (SpecString "/") 2 false] Sample.fresh))
    (Sample.request "GET" (Some "/other") "" None)
  ≠ Mount.TailCall Mount.CNext (Sample.request "GET" (Some "/other") "" None).
Proof.
  refine (catch_all_shadows_next _
            (Mount.new_mount (normalize (Sample.path_spec "/")) false 2)
            _ _ _ _ _).
  - apply list_elem_of_singleton. reflexivity.
  - reflexivity.
  - reflexivity.
Defined.

(** X6 on ["/wiki"] and ["/wiki/Page"]. *)
Lemma dispatch_keeps_full_path_wiki :
  "/app/wiki" +:+ JS.slice "/wiki/Page" 5 = "/app" +:+ "/wiki/Page".
Proof.
  exact (proj2 (proj2 (proj2
           (dispatch_keeps_full_path
              (Mount.new_mount (normalize (Sample.path_spec "/wiki")) false 2)
              (Sample.request "POST" (Some "/wiki/Page") "" None)
              {| scriptName := "/app/wiki";
                 pathInfo := Some "/Page";
                 headers :=
                   headers (Sample.request "POST" (Some "/wiki/Page") "" None);
                 method := "POST";
                 queryString := "";
                 env := {| lookupModule := None |} |}
              "/wiki/Page" (Mount.CApp 2) eq_refl eq_refl)))
           (Sample.path_spec "/wiki") eq_refl eq_refl eq_refl
           ltac:(discriminate)).
Defined.

(** The case X6 excludes: one spec object [{path: "/a//"}] passed to
    [app.mount] twice. The first entry has copied the path ["/a/"], and its
    closure now reads the object with the path ["/a"]: it matches
    [POST /a] and takes three characters off, so the application sees
    ["/app/a/"] and [""] where ["/app"] and ["/a"] came in. *)
Example reused_spec_breaks_full_path :
  let first :=
    {| Mount.spec := normalize (normalize (Sample.path_spec "/a//"));
       Mount.path := spec_path (normalize (Sample.path_spec "/a//"));
       Mount.canonicalPath :=
         spec_canonicalPath (normalize (Sample.path_spec "/a//"));
       Mount.redirect := true;
       Mount.app := 2%positive |} in
  let req := Sample.request "POST" (Some "/a") "" None in
  Mount.path first = Some "/a/"
  ∧ match_ (Mount.spec first) req = true
  ∧ Mount.dispatch_to first req
    = Mount.TailCall (Mount.CApp 2)
        {| scriptName := "/app/a/";
           pathInfo := Some "";
           headers := headers req;
           method := "POST";
           queryString := "";
           env := {| lookupModule := None |} |}.
Proof. repeat split. Qed.

(** X7 on ["/wiki"]: [GET /wiki/] reaches the application with ["/"]. *)
Lemma redirect_target_is_dispatched_wiki :
  Mount.dispatch_to
    (Mount.new_mount (normalize (Sample.path_spec "/wiki")) false 2)
    (Sample.request "GET" (Some "/wiki/") "" None)
  = Mount.TailCall (Mount.CApp 2)
      (set_path (Sample.request "GET" (Some "/wiki/") "" None)
         "/app/wiki" (Some "/")).
Proof.
  exact (proj2 (redirect_target_is_dispatched (Sample.path_spec "/wiki") false
                  2 (Sample.request "GET" (Some "/wiki/") "" None) "/wiki"
                  eq_refl ltac:(discriminate))).
Defined.

(** X8: application 2 is mounted by 1 on ["/a"]; mounting 3 under 2 on
    ["/b"] makes 3 resolve to ["/a/b"]. *)
Lemma lookup_extends_parent_path_chain :
  ∃ s,
    Mount.lookup Sample.no_module
      {[2%positive := [{| Mount.parent := Some 1%positive;
                          Mount.link_path := Some "/a";
                          Mount.link_host := None |}]]}
      (THandler 2) = Some (inr s)
    ∧ Mount.lookup Sample.no_module
        (Mount.mountInfo
           (snd (Mount.app_mount Sample.no_module 2 (SpecString "/b")
                   (THandler 3) false
                   {| Mount.mounts := [];
                      Mount.mountInfo :=
                        {[2%positive := [{| Mount.parent := Some 1%positive;
                                            Mount.link_path := Some "/a";
                                            Mount.link_host := None |}]]} |})))
        (THandler 3)
      = Some (inr (s +:+ "/b")).
Proof.
  refine (lookup_extends_parent_path Sample.no_module 2 3 (SpecString "/b")
            (Sample.path_spec "/b") false [] _ eq_refl _ _ _).
  - reflexivity.
  - discriminate.
  - intros k ls Hk. apply lookup_singleton_Some in Hk as [_ <-].
    repeat constructor. discriminate.
Defined.

(** X9: application 2 mounted under itself on ["/self"]. *)
Lemma lookup_self_mount_example :
  Mount.lookup Sample.no_module
    (Mount.mountInfo
       (snd (Mount.app_mount Sample.no_module 2 (SpecString "/self")
               (THandler 2) false Sample.fresh)))
    (THandler 2)
  = Some (inr "").
Proof.
  exact (lookup_self_mount Sample.no_module 2 (SpecString "/self")
           (Sample.path_spec "/self") false [] ∅ eq_refl eq_refl).
Defined.

(** X13: the module ["gone"] does not resolve, and is resolved all the
    same. *)
Lemma failed_module_stays_resolvable_gone :
  let result :=
    StickMount.app_mount Sample.no_module (SpecString "/gone") (TModule "gone")
      {| StickMount.mounts := []; StickMount.reverse := ∅ |} in
  fst result = Some Error_resolving_target
  ∧ StickMount.mounts (snd result) = []
  ∧ StickMount.lookupModule_fn (StickMount.reverse (snd result)) "/app" None
      "gone" = "/app/gone/".
Proof.
  pose proof (failed_module_stays_resolvable Sample.no_module
                (SpecString "/gone") (Sample.path_spec "/gone") "gone"
                {| StickMount.mounts := []; StickMount.reverse := ∅ |}
                eq_refl eq_refl) as (H1 & H2 & H3).
  split; [exact H1|]. split; [exact H2|].
  exact (H3 "/gone/" (Sample.request "GET" None "" None) eq_refl
           ltac:(discriminate)).
Defined.

(** X14: three reads and a change of factory after the first one. *)
Lemma upload_parses_at_most_once_example :
  length
    (Upload.parses
       (Upload.run UploadSample.isFileUpload UploadSample.parse
          UploadSample.post UploadSample.multipart UploadSample.earlier
          [Upload.Read; Upload.SetFactory 1; Upload.Read; Upload.Read]
          (Upload.installed 0))) ≤ 1.
Proof.
  exact (proj1 (upload_parses_at_most_once UploadSample.isFileUpload
                  UploadSample.parse UploadSample.post UploadSample.multipart
                  UploadSample.earlier 0
                  [Upload.Read; Upload.SetFactory 1; Upload.Read; Upload.Read])).
Defined.

(** X15: a POST of a form that is not multipart reads the parameters the
    params middleware left. *)
Lemma upload_leaves_other_requests_alone_form :
  fst (Upload.get UploadSample.isFileUpload UploadSample.parse
         UploadSample.post UploadSample.urlencoded UploadSample.earlier
         (Upload.run UploadSample.isFileUpload UploadSample.parse
            UploadSample.post UploadSample.urlencoded UploadSample.earlier
            [Upload.Read] (Upload.installed 0)))
  = inr (Some [("q", "1")]).
Proof.
  exact (proj2 (upload_leaves_other_requests_alone UploadSample.isFileUpload
                  UploadSample.parse UploadSample.post UploadSample.urlencoded
                  UploadSample.earlier (Upload.installed 0) [Upload.Read]
                  eq_refl eq_refl)).
Defined.

(** X16: the failing parser leaves the one field it had read. *)
Lemma upload_failed_parse_not_retried_example :
  let get := Upload.get UploadSample.isFileUpload UploadSample.parse_failing
               UploadSample.post UploadSample.multipart None in
  fst (get (Upload.installed 0)) = inl TypeError
  ∧ fst (get (snd (get (Upload.installed 0)))) = inr (Some [("title", "draft")]).
Proof.
  pose proof (upload_failed_parse_not_retried UploadSample.isFileUpload
                UploadSample.parse_failing UploadSample.post
                UploadSample.multipart None (Upload.installed 0)
                [("title", "draft")] TypeError eq_refl eq_refl eq_refl)
    as (H1 & H2 & _).
  split; [exact H1 | exact H2].
Defined.

(** X17: factories 1 and 2 are set before the first read, 3 after it. *)
Lemma upload_factory_of_first_read_example :
  Upload.parses
    (Upload.run UploadSample.isFileUpload UploadSample.parse
       UploadSample.post UploadSample.multipart None
       [Upload.SetFactory 1; Upload.SetFactory 2; Upload.Read;
        Upload.SetFactory 3; Upload.Read]
       (Upload.installed 0))
  = [2].
Proof.
  exact (upload_factory_of_first_read UploadSample.isFileUpload
           UploadSample.parse UploadSample.post UploadSample.multipart None
           0 [1; 2] [Upload.SetFactory 3; Upload.Read] eq_refl).
Defined.

(** X18: the module ["wiki"] is known to the outer dispatcher only; the
    request reaches [next] of the outer dispatcher, and the inner resolver
    gives the outer path. *)
Lemma nested_resolvers_chain_wiki :
  let outer := snd (StickMount.app_mount Sample.any_module (SpecString "/wiki")
                      (TModule "wiki")
                      {| StickMount.mounts := []; StickMount.reverse := ∅ |}) in
  let inner := {| StickMount.mounts := []; StickMount.reverse := ∅ |} in
  let req := Sample.request "GET" (Some "/blog") "" None in
  StickMount.lookupModule_fn (StickMount.reverse inner) "/app"
    (lookupModule (env (StickMount.install (StickMount.reverse outer) req)))
    "wiki"
  = "/app/wiki/".
Proof.
  intros outer inner req.
  pose proof (nested_resolvers_chain outer inner req
                (StickMount.install (StickMount.reverse outer) req)
                StickMount.CNext eq_refl) as (_ & _ & H & _).
  refine (eq_trans (H "wiki" eq_refl) _). vm_compute. reflexivity.
Defined.

(** X19: ["/a"] registered before ["/a/b"] in the older file takes
    ["/a/b/x"]. *)
Lemma older_earlier_prefix_shadows_example :
  let m := {| StickMount.spec := normalize (Sample.path_spec "/a");
              StickMount.path := Some "/a";
              StickMount.canonicalPath := Some "/a/";
              StickMount.target := 2%positive |} in
  let m' := {| StickMount.spec := normalize (Sample.path_spec "/a/b");
               StickMount.path := Some "/a/b";
               StickMount.canonicalPath := Some "/a/b/";
               StickMount.target := 3%positive |} in
  StickMount.mount_loop ([m] ++ [m'])
    (Sample.request "POST" (Some "/a/b/x") "" None)
  = StickMount.mount_loop [m] (Sample.request "POST" (Some "/a/b/x") "" None).
Proof.
  intros m m'.
  refine (proj1 (proj2 (older_earlier_prefix_shadows [m] m m'
                          (Sample.path_spec "/a") (Sample.path_spec "/a/b")
                          "/a" "b"
                          (Sample.request "POST" (Some "/a/b/x") "" None)
                          _ eq_refl eq_refl eq_refl _ eq_refl eq_refl eq_refl))).
  - apply list_elem_of_singleton. reflexivity.
  - discriminate.
Defined.
